(** * ETL evaluator: assignment strategies, vectorized loop engine,
      partitioning, aliasing and host/device coherence.

    Shallow embedding of
      - [eval_functors.hpp]  (functors [Assign], [AssignAdd], ...,
        [vectorized_base], [VectorizedAssign], [VectorizedAssignAdd], ...),
      - [evaluator.hpp]      ([standard_evaluator::assign_evaluate_impl],
        [add_evaluate], ..., [assign_evaluate]),
      - [dyn_base.hpp]       ([dyn_detail::size], [dyn_base]: invariants and
        constructors; [dense_dyn_base]: element access, [alias],
        [memory_start], [memory_end], residency API),
      - [views.hpp]          ([dim_view], [fast_matrix_view],
        [dyn_matrix_view]),
      - [egblas/scalar_add.hpp] (the availability flags).

    [std::size_t] values are integers in [Z] reduced modulo [2^64] at every
    arithmetic operation; pointers are byte addresses in [Z]. *)

From Stdlib Require Import ZArith List Bool Lia Permutation.
Import ListNotations.
Open Scope Z_scope.

(** ** [std::size_t]: 64-bit unsigned arithmetic *)

Module SizeT.

Definition modulus : Z := 2 ^ 64.

Definition wrap (x : Z) : Z := x mod modulus.

Definition add (a b : Z) : Z := wrap (a + b).
Definition sub (a b : Z) : Z := wrap (a - b).
Definition mul (a b : Z) : Z := wrap (a * b).

(** [std::size_t(-4)] *)
Definition minus4 : Z := wrap (-4).

Definition in_range (x : Z) : Prop := 0 <= x < modulus.

End SizeT.

(** ** Counted loops

    [for (i = i0; cond(i); i = incr(i)) body(i);] over a state [St].
    The fuel bounds the number of iterations; the loop returns the final
    value of the counter together with the final state. *)

Section ForLoop.

Context {St : Type}.

Fixpoint for_loop (fuel : nat) (cond : Z -> bool) (incr : Z -> Z)
         (body : Z -> St -> St) (i : Z) (s : St) : Z * St :=
  match fuel with
  | O => (i, s)
  | S fuel' =>
      if cond i then for_loop fuel' cond incr body (incr i) (body i s)
      else (i, s)
  end.

(** The counter values [a, a+k, ..., a+(m-1)k]. *)
Definition strided (a k : Z) (m : nat) : list Z :=
  map (fun j => a + k * Z.of_nat j) (seq 0 m).

Definition run_body (body : Z -> St -> St) (l : list Z) (s : St) : St :=
  fold_left (fun s i => body i s) l s.

End ForLoop.

(** ** Configuration

    The process-wide knobs read by the evaluator ([unroll_normal_loops],
    [unroll_vectorized_loops], [threads], [parallel_threshold]) and the
    constants of [intrinsic_traits<T>] ([IT::size], [IT::alignment]) and
    [sizeof(T)] for the element type [T].  Their declarations are not part
    of the embedded files, so they are parameters of the model. *)

Record config : Type := {
  unroll_normal_loops : bool;
  unroll_vectorized_loops : bool;
  threads : Z;
  parallel_threshold : Z;
  IT_size : Z;        (* lanes per vector *)
  IT_alignment : Z;   (* required byte alignment of an aligned store *)
  size_1 : Z          (* sizeof(value_t) *)
}.

(** Arithmetic of the element type. *)
Class Arith (V : Type) : Type := {
  v_add : V -> V -> V;
  v_sub : V -> V -> V;
  v_mul : V -> V -> V;
  v_div : V -> V -> V
}.

(** The elementwise operators of the functors: [=], [+=], [-=], [*=], [/=]. *)
Inductive operator : Type := OpAssign | OpAdd | OpSub | OpMul | OpDiv.

(** Which loop of the evaluator issued a store (ghost information). *)
Inductive phase : Type :=
  Scalar | Peel | AlignedMain | UnalignedMain | Remainder.

Definition phase_eqb (p q : phase) : bool :=
  match p, q with
  | Scalar, Scalar | Peel, Peel | AlignedMain, AlignedMain
  | UnalignedMain, UnalignedMain | Remainder, Remainder => true
  | _, _ => false
  end.

(** An execution chunk [[first, last)]. *)
Definition chunk : Type := (Z * Z)%type.

(** Iteration bound handed to [for_loop] for a loop whose counter stays
    below [bound]. *)
Definition fuel_for (bound : Z) : nat := S (Z.to_nat bound).

Section Evaluator.

Context {V : Type} `{Arith V}.
Variable cfg : config.

(** *** Memory *)

(** The heap maps the byte address of an element to its value. *)
Definition heap : Type := Z -> V.

Definition upd (h : heap) (a : Z) (v : V) : heap :=
  fun a' => if a' =? a then v else h a'.

(** Address of [p[i]] for a pointer [p] to elements. *)
Definition elem (p i : Z) : Z := p + i * size_1 cfg.

(** Machine state: the heap and the ghost trace of the stores performed,
    one entry (issuing loop, flat index) per element written. *)
Record machine : Type := { mem : heap; log : list (phase * Z) }.

Definition apply_op (op : operator) (l r : V) : V :=
  match op with
  | OpAssign => r
  | OpAdd => v_add l r
  | OpSub => v_sub l r
  | OpMul => v_mul l r
  | OpDiv => v_div l r
  end.

(** *** Dense containers ([dense_dyn_base]) *)

Record dense : Type := { _memory : Z; _size : Z }.

Definition memory_start (r : dense) : Z := _memory r.
Definition memory_end (r : dense) : Z := elem (_memory r) (_size r).

(** Modelled from the spec: [memory_alias], the overlap test on two
    half-open address ranges ("overlap test against another
    contiguous-memory collaborator"); its definition is not in the embedded
    files. *)
Definition memory_alias (a_begin a_end b_begin b_end : Z) : bool :=
  Z.max a_begin b_begin <? Z.min a_end b_end.

(** *** Expressions

    The capability surface the evaluator consumes from a right-hand side:
    [read_flat], [operator[]], [load], [memory_start]/[memory_end], [alias],
    and the traits [is_linear] and [all_dma].  Reads depend on the heap:
    an expression is a lazy view on memory. *)

Record Expr : Type := {
  e_size : Z;
  read_flat : heap -> Z -> V;
  at_ : heap -> Z -> V;              (* operator[] *)
  load : heap -> Z -> Z -> V;        (* load(i), lane k *)
  e_memory_start : Z;
  e_memory_end : Z;
  is_linear : bool;
  all_dma : bool;
  e_alias : dense -> bool            (* expr.alias(container) *)
}.

(** [dense_dyn_base::alias]: both overloads. *)
Definition alias (r : dense) (rhs : Expr) : bool :=
  if all_dma rhs then
    memory_alias (memory_start r) (memory_end r)
                 (e_memory_start rhs) (e_memory_end rhs)
  else e_alias rhs r.

(** A dense container used as a right-hand side:
    [operator[]] and [read_flat] return [_memory[i]]; [load(i)] is modelled
    from the spec as the elements [_memory[i .. i + IT::size)]. *)
Definition dense_expr (c : dense) : Expr := {|
  e_size := _size c;
  read_flat := fun h i => h (elem (_memory c) i);
  at_ := fun h i => h (elem (_memory c) i);
  load := fun h i k => h (elem (_memory c) (i + k));
  e_memory_start := memory_start c;
  e_memory_end := memory_end c;
  is_linear := true;
  all_dma := true;
  e_alias := fun r =>
    memory_alias (memory_start c) (memory_end c) (memory_start r) (memory_end r)
|}.

(** Modelled from the spec: the transpose view of a square [n x n]
    container ("non-linear iteration order, e.g., a transpose"); the view's
    definition is not in the embedded files.  Element [(i, j)] of the view
    is element [(j, i)] of the container, so flat index [k = i*n + j] reads
    [c[(k mod n) * n + k / n]]; the view is not linear, has no direct
    memory access, and aliases what its sub-expression aliases. *)
Definition transpose_expr (n : Z) (c : dense) : Expr := {|
  e_size := _size c;
  read_flat := fun h k => h (elem (_memory c) ((k mod n) * n + k / n));
  at_ := fun h k => h (elem (_memory c) ((k mod n) * n + k / n));
  load := fun h i k =>
    h (elem (_memory c) (((i + k) mod n) * n + (i + k) / n));
  e_memory_start := 0;
  e_memory_end := 0;
  is_linear := false;
  all_dma := false;
  e_alias := fun r =>
    memory_alias (memory_start c) (memory_end c) (memory_start r) (memory_end r)
|}.

(** *** Stores *)

(** [lhs[i] = v], issued by loop [ph]. *)
Definition scalar_store (ph : phase) (lhs i : Z) (v : V) (m : machine) : machine :=
  {| mem := upd (mem m) (elem lhs i) v; log := log m ++ [(ph, i)] |}.

(** [lhs[i] op= rd(i)]: the right-hand side and the old value are read in
    the state before the store. *)
Definition scalar_update (ph : phase) (op : operator) (rd : heap -> Z -> V)
           (lhs i : Z) (m : machine) : machine :=
  scalar_store ph lhs i (apply_op op (mem m (elem lhs i)) (rd (mem m) i)) m.

(** The lane numbers [0 .. IT::size - 1]. *)
Definition lanes : list Z := map Z.of_nat (seq 0 (Z.to_nat (IT_size cfg))).

(** Modelled from the spec: [default_vec::store(lhs + i, v)] and
    [default_vec::storeu(lhs + i, v)], the aligned and unaligned stores of
    the vector instruction set (not in the embedded files): both write the
    [IT::size] lanes of [v] to [lhs[i .. i + IT::size)]; [ph] records which
    of the two was used. *)
Definition vec_store (ph : phase) (lhs i : Z) (v : Z -> V) (m : machine) : machine :=
  {| mem := fold_left (fun h k => upd h (elem lhs (i + k)) (v k)) lanes (mem m);
     log := log m ++ map (fun k => (ph, i + k)) lanes |}.

(** Modelled from the spec: [default_vec::add], [sub], [mul] and [div] (not
    in the embedded files): "lane arithmetic must be bit-identical to
    scalar arithmetic", so each lane holds the scalar operation on the
    lanes of the operands.  Plain assignment stores its right operand. *)
Definition default_vec_op (op : operator) (x y : Z -> V) : Z -> V :=
  fun k => apply_op op (x k) (y k).

(** Modelled from the spec: [lhs.load(i)] of a dense container (its
    definition is not in the embedded files): the lanes are the elements
    [lhs[i .. i + IT::size)]. *)
Definition dense_load (h : heap) (lhs i : Z) : Z -> V :=
  fun k => h (elem lhs (i + k)).

(** [store(lhs + i, op(lhs.load(i), rhs.load(i)))]; for plain assignment
    [store(lhs + i, rhs.load(i))]. *)
Definition vec_update (ph : phase) (op : operator) (rhs : Expr)
           (lhs i : Z) (m : machine) : machine :=
  vec_store ph lhs i
    (default_vec_op op (dense_load (mem m) lhs i) (load rhs (mem m) i)) m.

(** *** Scalar functors ([Assign], [AssignAdd], [AssignSub], [AssignMul],
    [AssignDiv])

    The five functors differ only in the operator and in the read used on
    the right-hand side: [Assign] calls [rhs.read_flat(i)], the compound
    functors call [rhs[i]]. *)

Definition scalar_read (op : operator) (rhs : Expr) : heap -> Z -> V :=
  match op with
  | OpAssign => read_flat rhs
  | _ => at_ rhs
  end.

Definition Assign_functor (op : operator) (lhs : Z) (rhs : Expr)
           (_first _last : Z) (m : machine) : machine :=
  let _size := SizeT.sub _last _first in
  let body := scalar_update Scalar op (scalar_read op rhs) lhs in
  let '(iend, m1) :=
    if unroll_normal_loops cfg then
      let iend := SizeT.add _first (Z.land _size SizeT.minus4) in
      (iend,
       snd (for_loop (fuel_for _last)
              (fun i => i <? iend) (fun i => SizeT.add i 4)
              (fun i m =>
                 body (SizeT.add i 3)
                   (body (SizeT.add i 2) (body (SizeT.add i 1) (body i m))))
              _first m))
    else (_first, m) in
  snd (for_loop (fuel_for _last)
         (fun i => i <? _last) (fun i => SizeT.add i 1) body iend m1).

(** *** Vectorized functors ([vectorized_base] and its five derived
    functors) *)

(** [peel_loop]: returns the number of peeled iterations. *)
Definition peel_loop (op : operator) (lhs_m : Z) (rhs : Expr)
           (_first _last : Z) (m : machine) : Z * machine :=
  let _size := SizeT.sub _last _first in
  let u_bytes := elem lhs_m _first mod IT_alignment cfg in
  if (size_1 cfg <=? u_bytes) && (u_bytes mod size_1 cfg =? 0) then
    let u_loads := Z.min (u_bytes / size_1 cfg) _size in
    for_loop (fuel_for u_loads)
      (fun i => i <? u_loads) (fun i => SizeT.add i 1)
      (fun i m => scalar_update Peel op (at_ rhs) lhs_m (SizeT.add _first i) m)
      0 m
  else (0, m).

(** [aligned_main_loop] and [unaligned_main_loop] have the same shape and
    differ in the store used ([store] / [storeu]), recorded as [ph]. *)
Definition main_loop (ph : phase) (op : operator) (lhs_m : Z) (rhs : Expr)
           (_last first : Z) (m : machine) : Z * machine :=
  let S4 := SizeT.mul (IT_size cfg) 4 in
  let step := vec_update ph op rhs lhs_m in
  if unroll_vectorized_loops cfg && (S4 <? SizeT.sub _last first) then
    for_loop (fuel_for _last)
      (fun i => SizeT.sub (SizeT.add i S4) 1 <? _last)
      (fun i => SizeT.add i S4)
      (fun i m =>
         step (SizeT.add i (SizeT.mul 3 (IT_size cfg)))
           (step (SizeT.add i (SizeT.mul 2 (IT_size cfg)))
              (step (SizeT.add i (SizeT.mul 1 (IT_size cfg))) (step i m))))
      first m
  else
    for_loop (fuel_for _last)
      (fun i => SizeT.sub (SizeT.add i (IT_size cfg)) 1 <? _last)
      (fun i => SizeT.add i (IT_size cfg))
      step first m.

Definition aligned_main_loop := main_loop AlignedMain.
Definition unaligned_main_loop := main_loop UnalignedMain.

Definition remainder_loop (op : operator) (lhs_m : Z) (rhs : Expr)
           (_last first : Z) (m : machine) : machine :=
  snd (for_loop (fuel_for _last)
         (fun i => i <? _last) (fun i => SizeT.add i 1)
         (scalar_update Remainder op (at_ rhs) lhs_m) first m).

(** Which main loop [vectorized_base::operator()] takes after peeling. *)
Inductive main_choice : Type := NoMain | UseAligned | UseUnaligned.

(** The tag of the stores of the chosen main loop. *)
Definition main_phase (c : main_choice) : phase :=
  match c with
  | UseAligned => AlignedMain
  | _ => UnalignedMain
  end.

Definition choose_main (lhs_m _first _last peeled : Z) : main_choice :=
  let _size := SizeT.sub _last _first in
  if IT_size cfg <=? SizeT.sub _size peeled then
    if elem lhs_m (_first + peeled) mod IT_alignment cfg =? 0
    then UseAligned else UseUnaligned
  else NoMain.

(** [vectorized_base::operator()]. *)
Definition vectorized_functor (op : operator) (lhs : dense) (rhs : Expr)
           (_first _last : Z) (m : machine) : machine :=
  let lhs_m := memory_start lhs in
  let '(peeled, m1) := peel_loop op lhs_m rhs _first _last m in
  let '(first, m2) :=
    match choose_main lhs_m _first _last peeled with
    | UseAligned =>
        aligned_main_loop op lhs_m rhs _last (SizeT.add _first peeled) m1
    | UseUnaligned =>
        unaligned_main_loop op lhs_m rhs _last (SizeT.add _first peeled) m1
    | NoMain => (SizeT.add peeled _first, m1)
    end in
  remainder_loop op lhs_m rhs _last first m2.

(** *** Partitioning and the worker pool *)

(** The [for (t = 0; t < threads - 1; ++t) pool.do_task(...)] loop: the
    chunks queued on the pool, in submission order. *)
Definition schedule_tasks (batch : Z) : list chunk :=
  snd (for_loop (fuel_for (threads cfg))
         (fun t => t <? SizeT.sub (threads cfg) 1) (fun t => SizeT.add t 1)
         (fun t q => q ++ [(SizeT.mul t batch, SizeT.mul (SizeT.add t 1) batch)])
         0 []).

(** Outcome of the guard [n < parallel_threshold || threads < 2] of the
    parallel strategies: fall back to the single-threaded functor, or queue
    [threads - 1] chunks and keep the last one for the calling thread. *)
Inductive dispatch : Type :=
| SingleThread
| MultiThread (queued : list chunk) (own : chunk).

(** "Distribute evenly the batches": the chunks queued on the pool and the
    chunk kept by the calling thread. *)
Definition partition (n : Z) : list chunk * chunk :=
  let batch := n / threads cfg in
  (schedule_tasks batch, (SizeT.mul (SizeT.sub (threads cfg) 1) batch, n)).

Definition parallel_dispatch (n : Z) : dispatch :=
  if (n <? parallel_threshold cfg) || (threads cfg <? 2) then SingleThread
  else
    let '(queued, own) := partition n in
    MultiThread queued own.

Definition is_multi (d : dispatch) : bool :=
  match d with SingleThread => false | MultiThread _ _ => true end.

(** Modelled from the spec: [cpp::default_thread_pool] (not in the embedded
    files).  Every submitted chunk and the chunk of the calling thread run
    exactly once and no order between chunks is implied; [pool.wait()] is
    the barrier.  [sched] is the order in which the chunks retire. *)
Variable sched : list chunk -> list chunk.

Definition run_chunks (f : Z -> Z -> machine -> machine)
           (cs : list chunk) (m : machine) : machine :=
  fold_left (fun m c => f (fst c) (snd c) m) cs m.

Definition parallel_run (single : machine -> machine)
           (f : Z -> Z -> machine -> machine) (n : Z) (m : machine) : machine :=
  match parallel_dispatch n with
  | SingleThread => single m
  | MultiThread queued own => run_chunks f (sched (queued ++ [own])) m
  end.

(** *** The evaluator ([standard_evaluator]) *)

(** Modelled from the spec: [evaluate_only] forces the temporary-producing
    sub-expressions of the tree (its visitors are not in the embedded
    files); the expressions of this model hold no such node, so nothing is
    left to force. *)
Definition evaluate_only (e : Expr) (m : machine) : machine := m.

(** [for (i = 0; i < size(result); ++i) result[i] op= expr...]:
    [read_flat] for assignment, [operator[]] for the compound operators. *)
Definition standard_evaluate (op : operator) (e : Expr) (r : dense)
           (m : machine) : machine :=
  snd (for_loop (fuel_for (_size r))
         (fun i => i <? _size r) (fun i => SizeT.add i 1)
         (scalar_update Scalar op (scalar_read op e) (_memory r)) 0 m).

(** [std::copy(first, last, d_first)] on element pointers. *)
Definition std_copy (first last d_first : Z) (m : machine) : machine :=
  let n := (last - first) / size_1 cfg in
  snd (for_loop (fuel_for n)
         (fun k => k <? n) (fun k => k + 1)
         (fun k m => scalar_store Scalar d_first k (mem m (elem first k)) m)
         0 m).

Definition direct_evaluate (op : operator) (e : Expr) (r : dense)
           (m : machine) : machine :=
  Assign_functor op (memory_start r) e 0 (_size r) m.

Definition vectorized_evaluate (op : operator) (e : Expr) (r : dense)
           (m : machine) : machine :=
  vectorized_functor op r e 0 (_size r) m.

Definition parallel_evaluate (op : operator) (e : Expr) (r : dense)
           (m : machine) : machine :=
  parallel_run (direct_evaluate op e r)
               (Assign_functor op (memory_start r) e) (_size r) m.

Definition parallel_vectorized_evaluate (op : operator) (e : Expr) (r : dense)
           (m : machine) : machine :=
  parallel_run (vectorized_evaluate op e r)
               (vectorized_functor op r e) (_size r) m.

(** The six overloads of [assign_evaluate_impl], selected by traits. *)
Inductive strategy : Type :=
  standard | fast | direct | vectorized | parallel | parallel_vectorized.

Definition assign_evaluate_impl (s : strategy) (e : Expr) (r : dense)
           (m : machine) : machine :=
  match s with
  | standard => standard_evaluate OpAssign e r m
  | fast => std_copy (e_memory_start e) (e_memory_end e) (memory_start r) m
  | direct => direct_evaluate OpAssign e r m
  | vectorized => vectorized_evaluate OpAssign e r m
  | parallel => parallel_evaluate OpAssign e r m
  | parallel_vectorized => parallel_vectorized_evaluate OpAssign e r m
  end.

(** The five overloads of [add_evaluate] ([sub_evaluate], [mul_evaluate] and
    [div_evaluate] have the same five). *)
Inductive compound_strategy : Type :=
  standard_compound | direct_compound | vectorized_compound
| parallel_compound | parallel_vectorized_compound.

Definition compound_evaluate (op : operator) (s : compound_strategy)
           (e : Expr) (r : dense) (m : machine) : machine :=
  let m := evaluate_only e m in
  match s with
  | standard_compound => standard_evaluate op e r m
  | direct_compound => direct_evaluate op e r m
  | vectorized_compound => vectorized_evaluate op e r m
  | parallel_compound => parallel_evaluate op e r m
  | parallel_vectorized_compound => parallel_vectorized_evaluate op e r m
  end.

Definition add_evaluate := compound_evaluate OpAdd.
Definition sub_evaluate := compound_evaluate OpSub.
Definition mul_evaluate := compound_evaluate OpMul.
Definition div_evaluate := compound_evaluate OpDiv.

(** Modelled from the spec: [force_temporary(result)] yields a freshly
    allocated container of the type and shape of [result]; [tmp_memory] is
    the address returned by the allocator. *)
Definition force_temporary (tmp_memory : Z) (r : dense) : dense :=
  {| _memory := tmp_memory; _size := _size r |}.

(** [standard_evaluator::assign_evaluate] (non-temporary expressions).
    [s] is the overload selected for an expression of the type of [expr]
    into a container of the type of [result] (the temporary has that type
    too); [s_copy] the one selected for a container of that type into
    another. *)
Definition assign_evaluate (s s_copy : strategy) (tmp_memory : Z)
           (expr : Expr) (result : dense) (m : machine) : machine :=
  let m := evaluate_only expr m in
  let linear := is_linear expr in
  if negb linear && alias result expr then
    let tmp_result := force_temporary tmp_memory result in
    let m1 := assign_evaluate_impl s expr tmp_result m in
    assign_evaluate_impl s_copy (dense_expr tmp_result) result m1
  else
    assign_evaluate_impl s expr result m.

End Evaluator.

Arguments heap V : clear implicits.
Arguments machine V : clear implicits.
Arguments Expr V : clear implicits.

(** ** Contracts of the collaborators *)

Section Contracts.

Context {V : Type} `{Arith V}.
Variable cfg : config.

(** Sanity of the platform constants. *)
Record config_ok : Prop := {
  size_1_pos : 0 < size_1 cfg;
  IT_size_pos : 0 < IT_size cfg;
  IT_alignment_pos : 0 < IT_alignment cfg;
  threads_range : SizeT.in_range (threads cfg)
}.

(** The same configuration with other loop-unrolling toggles. *)
Definition with_unroll (normal vectorized : bool) : config := {|
  unroll_normal_loops := normal;
  unroll_vectorized_loops := vectorized;
  threads := threads cfg;
  parallel_threshold := parallel_threshold cfg;
  IT_size := IT_size cfg;
  IT_alignment := IT_alignment cfg;
  size_1 := size_1 cfg
|}.

(** Index [j] lies in chunk [c]. *)
Definition in_chunk (j : Z) (c : chunk) : Prop := fst c <= j < snd c.

(** Two chunks share no index. *)
Definition chunks_apart (c d : chunk) : Prop :=
  forall j, in_chunk j c -> in_chunk j d -> False.

(** [chained a cs b]: the chunks of [cs] are consecutive, from [a] to [b]. *)
Fixpoint chained (a : Z) (cs : list chunk) (b : Z) : Prop :=
  match cs with
  | [] => a = b
  | c :: cs' => fst c = a /\ a <= snd c /\ chained (snd c) cs' b
  end.

(** An element count whose index arithmetic stays inside [std::size_t]. *)
Definition fits (n : Z) : Prop :=
  0 <= n /\ n + 4 * IT_size cfg < SizeT.modulus.

(** The flat indices [a, a+1, ..., a+len-1]. *)
Definition zseq (a len : Z) : list Z := strided a 1 (Z.to_nat len).

(** Laws of the capability surface of an expression: [operator[]] and
    [load] agree with [read_flat], and an expression with direct memory
    access holds its values in [[memory_start, memory_end)]. *)
Record ExprLaws (e : Expr V) : Prop := {
  at_read_flat : forall h i, at_ e h i = read_flat e h i;
  load_read_flat :
    forall h i k, 0 <= k < IT_size cfg -> load e h i k = read_flat e h (i + k);
  dma_memory :
    all_dma e = true ->
    (forall h i, read_flat e h i = h (elem cfg (e_memory_start e) i))
    /\ e_memory_end e = elem cfg (e_memory_start e) (e_size e)
}.

(** Elementwise independence of [e] from the destination [r]: the value
    read at flat index [i] does not depend on the destination's elements
    other than element [i]. *)
Definition elementwise (e : Expr V) (r : dense) : Prop :=
  forall (h h' : heap V) i,
    0 <= i < _size r ->
    (forall a, (forall j, 0 <= j < _size r -> j <> i ->
                          a <> elem cfg (_memory r) j) -> h a = h' a) ->
    read_flat e h i = read_flat e h' i.

(** [updated op e r P h0 h]: [h] is [h0] where exactly the destination
    elements with index in [P] have received [r[i] op= e.read_flat(i)],
    the right-hand side being read in [h0]. *)
Definition updated (op : operator) (e : Expr V) (r : dense)
           (P : Z -> Prop) (h0 h : heap V) : Prop :=
  (forall i, P i -> 0 <= i < _size r)
  /\ (forall i, P i ->
        h (elem cfg (_memory r) i)
        = apply_op op (h0 (elem cfg (_memory r) i)) (read_flat e h0 i))
  /\ (forall a, (forall i, P i -> a <> elem cfg (_memory r) i) -> h a = h0 a).

(** No element of [c] is an element of [r]. *)
Definition cells_apart (c r : dense) : Prop :=
  forall i j, 0 <= i < _size c -> 0 <= j < _size r ->
              elem cfg (_memory c) i <> elem cfg (_memory r) j.

(** [e] does not read the storage of the (freshly allocated) container
    [tmp]. *)
Definition fresh_for (e : Expr V) (tmp : dense) : Prop :=
  forall (h h' : heap V) i,
    0 <= i < _size tmp ->
    (forall a, (forall j, 0 <= j < _size tmp ->
                          a <> elem cfg (_memory tmp) j) -> h a = h' a) ->
    read_flat e h i = read_flat e h' i.

(** The phases that issued the stores of a trace. *)
Definition phases_of (tr : list (phase * Z)) : list phase := map fst tr.

(** The flat indices stored by a trace, in order. *)
Definition indices_of (tr : list (phase * Z)) : list Z := map snd tr.

Definition phase_runs (ph : phase) (tr : list (phase * Z)) : bool :=
  existsb (phase_eqb ph) (phases_of tr).

(** The worker pool runs every chunk exactly once. *)
Definition fair (sched : list chunk -> list chunk) : Prop :=
  forall l, Permutation l (sched l).

(** Legality of an assignment strategy for an expression: the memory copy
    needs direct memory access on the right-hand side. *)
Definition legal (s : strategy) (e : Expr V) : Prop :=
  match s with
  | fast => all_dma e = true
  | _ => True
  end.

End Contracts.

(** ** Host/device coherence *)

Module Coherence.

Section Handler.

Context {V : Type}.

(** Modelled from the spec: [gpu_memory_handler<T>], the coherence state
    attached to a dense container (its definition is not in the embedded
    files): "a pair of boolean flags [host_fresh], [device_fresh], plus an
    optional device-memory handle".  [to_host] counts the device-to-host
    transfers performed (ghost). *)
Record handler : Type := {
  host_fresh : bool;
  device_fresh : bool;
  device_memory : option (list V);
  to_host : nat
}.

(** Modelled from the spec: the states [{HostFresh, DeviceFresh, Both}] of
    a container and "the forbidden fourth state, neither". *)
Inductive state : Type := HostFresh | DeviceFresh | Both | Neither.

Definition state_of (g : handler) : state :=
  match host_fresh g, device_fresh g with
  | true, true => Both
  | true, false => HostFresh
  | false, true => DeviceFresh
  | false, false => Neither
  end.

(** Modelled from the spec: [invalidateHost()],
    "Both|DeviceFresh -> DeviceFresh"; called after a device-side
    mutation. *)
Definition invalidate_cpu (g : handler) : handler :=
  {| host_fresh := false; device_fresh := device_fresh g;
     device_memory := device_memory g; to_host := to_host g |}.

(** Modelled from the spec: the device-to-host transfer of the device
    runtime, a copy of [n] elements from the device buffer over the host
    buffer. *)
Definition copy_to_host (g : handler) (cpu_memory : list V) (n : nat) : list V :=
  match device_memory g with
  | Some d => firstn n d ++ skipn n cpu_memory
  | None => cpu_memory
  end.

(** Modelled from the spec: [ensureHostUpToDate(hostPtr, n)], "if not
    [HostFresh], copies device->host and marks [Both]". *)
Definition handler_ensure_cpu_up_to_date (g : handler) (cpu_memory : list V)
           (n : nat) : handler * list V :=
  if host_fresh g then (g, cpu_memory)
  else
    ({| host_fresh := true; device_fresh := true;
        device_memory := device_memory g; to_host := S (to_host g) |},
     copy_to_host g cpu_memory n).

(** A dense container with its handler: the host elements
    [_memory[0 .. _size)] and [_gpu]. *)
Record container : Type := {
  c_memory : list V;
  c_size : nat;
  c_gpu : handler
}.

(** [dense_dyn_base::ensure_cpu_up_to_date]:
    [_gpu.ensure_cpu_up_to_date(memory_start(), _size)]. *)
Definition ensure_cpu_up_to_date (c : container) : container :=
  let '(g, host) :=
    handler_ensure_cpu_up_to_date (c_gpu c) (c_memory c) (c_size c) in
  {| c_memory := host; c_size := c_size c; c_gpu := g |}.

(** [dense_dyn_base::invalidate_cpu]. *)
Definition container_invalidate_cpu (c : container) : container :=
  {| c_memory := c_memory c; c_size := c_size c;
     c_gpu := invalidate_cpu (c_gpu c) |}.

End Handler.

Arguments handler V : clear implicits.
Arguments container V : clear implicits.

End Coherence.

(** ** Modulo assignment *)

Section ModEvaluate.

Context {V : Type}.
Variable cfg : config.

(** [standard_evaluator::mod_evaluate]: [result[i] %= expr[i]] over the
    whole destination ("there are no optimized versions for mod");
    [v_mod] is the [%] of the element type. *)
Definition mod_evaluate (v_mod : V -> V -> V) (expr : Expr V) (result : dense)
           (m : machine V) : machine V :=
  let m := evaluate_only expr m in
  snd (for_loop (fuel_for (_size result))
         (fun i => i <? _size result) (fun i => SizeT.add i 1)
         (fun i m =>
            scalar_store cfg Scalar (_memory result) i
              (v_mod (mem m (elem cfg (_memory result) i)) (at_ expr (mem m) i))
              m)
         0 m).

(** The arithmetic in which [+=] is [%=]: the loop of [mod_evaluate] is the
    standard compound loop in this arithmetic. *)
Definition mod_arith (v_mod : V -> V -> V) : Arith V :=
  {| v_add := v_mod; v_sub := v_mod; v_mul := v_mod; v_div := v_mod |}.

End ModEvaluate.

(** ** Traces *)

(** Number of stores of a trace issued by loop [ph]. *)
Definition stores_by (ph : phase) (tr : list (phase * Z)) : Z :=
  Z.of_nat (length (filter (fun x => phase_eqb ph (fst x)) tr)).

(** ** Dimensions of a dynamic container ([dyn_base]) *)

Module DynBase.

(** [dyn_detail::size(first, args...)]: [size(first) = first] and
    [size(first, args...) = first * size(args...)]. *)
Fixpoint size (first : Z) (args : list Z) : Z :=
  match args with
  | [] => first
  | a :: args' => SizeT.mul first (size a args')
  end.

(** [dyn_base<T, D>]: the element count and the array of dimensions. *)
Record dyn_base : Type := { _size : Z; _dimensions : list Z }.

(** [check_invariants()] with assertions enabled; the result tells whether
    both assertions pass.  [D] is the template parameter; [computed] is
    [std::accumulate(begin, end, std::size_t(1), std::multiplies<std::size_t>())]. *)
Definition check_invariants (D : nat) (b : dyn_base) : bool :=
  Nat.eqb (length (_dimensions b)) D
  && (let computed := fold_left SizeT.mul (_dimensions b) 1 in
      computed =? _size b).

(** [dyn_base()]: size 0, dimensions filled with 0. *)
Definition init_default (D : nat) : dyn_base :=
  {| _size := 0; _dimensions := repeat 0 D |}.

(** [dyn_base(size, dimensions)]. *)
Definition init (size : Z) (dimensions : list Z) : dyn_base :=
  {| _size := size; _dimensions := dimensions |}.

(** [dim(d)]: [cpp_assert(d < n_dimensions)], then [_dimensions[d]];
    [None] when the assertion fails. *)
Definition dim (D : nat) (b : dyn_base) (d : nat) : option Z :=
  if Nat.ltb d D then nth_error (_dimensions b) d else None.

(** [dense_dyn_base]: the dimensions and the pointer to the elements. *)
Record dense_dyn_base : Type := { base : dyn_base; _memory : Z }.

Section Access.

Context {V : Type}.
Variable cfg : config.

(** [operator[](i)] and [read_flat(i)]: [cpp_assert(i < _size)], then
    [_memory[i]]; [None] when the assertion fails. *)
Definition read_flat (c : dense_dyn_base) (h : heap V) (i : Z) : option V :=
  if i <? _size (base c) then Some (h (elem cfg (_memory c) i)) else None.

(** [operator()(i)] of a container with [n_dimensions == 1]:
    [cpp_assert(i < dim(0))], then [_memory[i]]. *)
Definition call_1d (c : dense_dyn_base) (h : heap V) (i : Z) : option V :=
  match dim 1 (base c) 0 with
  | Some d0 => if i <? d0 then Some (h (elem cfg (_memory c) i)) else None
  | None => None
  end.

End Access.

End DynBase.

(** ** Matrix views ([views.hpp]) *)

Module Views.

Section Views.

Context {V : Type}.

(** [dim_view<T, D>]: the condition of
    [static_assert(D > 0 || D < 3, "Invalid dimension")]. *)
Definition dim_view_static_assert (D : Z) : bool := (0 <? D) || (D <? 3).

(** [dim_view::operator[](j)] (and [operator()(j)]) of the view at index
    [i]: [if (D == 1) return sub(i, j); else if (D == 2) return sub(j, i);]
    and no [return] otherwise ([None]). *)
Definition dim_view_at (D : Z) (sub : Z -> Z -> V) (i j : Z) : option V :=
  if D =? 1 then Some (sub i j)
  else if D =? 2 then Some (sub j i)
  else None.

(** [fast_matrix_view<T, Rows, Columns>::operator()(i, j)]:
    [sub[i * Columns + j]]. *)
Definition fast_matrix_view_at (Columns : Z) (sub : Z -> V) (i j : Z) : V :=
  sub (SizeT.add (SizeT.mul i Columns) j).

(** [dyn_matrix_view<T>::operator()(i, j)]: [sub(i * columns + j)]. *)
Definition dyn_matrix_view_at (columns : Z) (sub : Z -> V) (i j : Z) : V :=
  sub (SizeT.add (SizeT.mul i columns) j).

End Views.

End Views.

(** ** Availability flags of the scalar-add kernels ([egblas/scalar_add.hpp]) *)

Module Egblas.

Inductive flag : Type :=
  has_scalar_sadd | has_scalar_dadd | has_scalar_cadd | has_scalar_zadd.

Definition flag_eqb (a b : flag) : bool :=
  match a, b with
  | has_scalar_sadd, has_scalar_sadd | has_scalar_dadd, has_scalar_dadd
  | has_scalar_cadd, has_scalar_cadd | has_scalar_zadd, has_scalar_zadd => true
  | _, _ => false
  end.

(** The [static constexpr bool] declarations left in namespace
    [etl::impl::egblas] by the preprocessor, in order; the arguments tell
    which of [EGBLAS_HAS_SCALAR_SADD], [..._DADD], [..._CADD] and
    [..._ZADD] are defined. *)
Definition declarations (SADD DADD CADD ZADD : bool) : list (flag * bool) :=
  [ if SADD then (has_scalar_sadd, true) else (has_scalar_sadd, false);
    if DADD then (has_scalar_dadd, true) else (has_scalar_sadd, false);
    if CADD then (has_scalar_cadd, true) else (has_scalar_cadd, false);
    if ZADD then (has_scalar_zadd, true) else (has_scalar_zadd, false) ].

(** How many times a name is declared. *)
Definition declared (decls : list (flag * bool)) (f : flag) : nat :=
  length (filter (fun d => flag_eqb f (fst d)) decls).

End Egblas.

(** ** Concrete instances *)

#[export] Instance Z_arith : Arith Z :=
  {| v_add := Z.add; v_sub := Z.sub; v_mul := Z.mul; v_div := Z.div |}.

(** 8 lanes of 4-byte elements, 32-byte alignment. *)
Definition avx_float : config := {|
  unroll_normal_loops := true;
  unroll_vectorized_loops := true;
  threads := 2;
  parallel_threshold := 8;
  IT_size := 8;
  IT_alignment := 32;
  size_1 := 4
|}.

(** 4 lanes of 4-byte elements, 16-byte alignment. *)
Definition sse_float : config := {|
  unroll_normal_loops := true;
  unroll_vectorized_loops := false;
  threads := 2;
  parallel_threshold := 8;
  IT_size := 4;
  IT_alignment := 16;
  size_1 := 4
|}.

(** 2 lanes of 16-byte elements aligned on 8 bytes, 32-byte alignment. *)
Definition avx_complex_double : config := {|
  unroll_normal_loops := true;
  unroll_vectorized_loops := true;
  threads := 2;
  parallel_threshold := 8;
  IT_size := 2;
  IT_alignment := 32;
  size_1 := 16
|}.

(** The heap in which every element holds its own address. *)
Definition iota_heap : heap Z := fun a => a.

Definition start : machine Z := {| mem := iota_heap; log := [] |}.

(** A 3 x 3 container at address 4096 and a source of 23 elements at
    address 0, a destination of 23 elements at 8192. *)
Definition square3 : dense := {| _memory := 4096; _size := 9 |}.
Definition small4 : dense := {| _memory := 4096; _size := 4 |}.
Definition source23 : dense := {| _memory := 0; _size := 23 |}.
Definition dest23 : dense := {| _memory := 8192; _size := 23 |}.

(** A source and a destination of 64 elements, and two empty containers. *)
Definition source64 : dense := {| _memory := 0; _size := 64 |}.
Definition dest64 : dense := {| _memory := 8192; _size := 64 |}.
Definition source0 : dense := {| _memory := 0; _size := 0 |}.
Definition dest0 : dense := {| _memory := 8192; _size := 0 |}.

(** The pool retiring the chunks in reverse order of submission. *)
Definition reverse_pool : list chunk -> list chunk := @rev chunk.
Definition in_order_pool : list chunk -> list chunk := fun l => l.

(** * Properties *)

(** ** Facts on [std::size_t] arithmetic *)

Module SizeTFacts.
Import SizeT.

Lemma modulus_pos : 0 < modulus.
Proof. reflexivity. Qed.

Lemma wrap_small x : in_range x -> wrap x = x.
Proof. intros H. unfold wrap. apply Z.mod_small. exact H. Qed.

Lemma add_small a b : in_range (a + b) -> add a b = a + b.
Proof. apply wrap_small. Qed.

Lemma sub_small a b : in_range (a - b) -> sub a b = a - b.
Proof. apply wrap_small. Qed.

Lemma mul_small a b : in_range (a * b) -> mul a b = a * b.
Proof. apply wrap_small. Qed.

(** [x & std::size_t(-4)] clears the two low bits. *)
Lemma land_minus4 x : in_range x -> Z.land x minus4 = x - x mod 4.
Proof.
  intros [H0 H1].
  assert (E : minus4 = Z.shiftl (Z.ones 62) 2) by reflexivity.
  rewrite E.
  assert (Hx : x = Z.shiftl (Z.shiftr x 2) 2 + x mod 4).
  { rewrite Z.shiftr_div_pow2, Z.shiftl_mul_pow2 by lia.
    change (2 ^ 2) with 4. pose proof (Z.div_mod x 4). lia. }
  assert (Hl : Z.land x (Z.shiftl (Z.ones 62) 2)
               = Z.shiftl (Z.land (Z.shiftr x 2) (Z.ones 62)) 2).
  { apply Z.bits_inj'. intros k Hk.
    rewrite Z.land_spec.
    destruct (Z.ltb_spec k 2) as [Hlt | Hge].
    - rewrite !Z.shiftl_spec_low by lia. apply andb_false_r.
    - rewrite !Z.shiftl_spec by lia. rewrite Z.land_spec.
      rewrite Z.shiftr_spec by lia.
      replace (k - 2 + 2) with k by lia. reflexivity. }
  rewrite Hl, Z.land_ones by lia.
  rewrite Z.shiftr_div_pow2 by lia. change (2 ^ 2) with 4.
  rewrite Z.mod_small.
  - rewrite Z.shiftl_mul_pow2 by lia. change (2 ^ 2) with 4.
    pose proof (Z.div_mod x 4). lia.
  - split.
    + apply Z.div_pos; lia.
    + apply Z.div_lt_upper_bound; [lia|]. unfold modulus in H1.
      change (4 * 2 ^ 62) with (2 ^ 64). exact H1.
Qed.

End SizeTFacts.

(** Side conditions of the form [SizeT.in_range x]. *)
Ltac in_size_t := unfold SizeT.in_range; lia.

(** ** Facts on counted loops *)

Section ForLoopFacts.

Context {St : Type}.
Implicit Types (body : Z -> St -> St) (s : St).

Lemma strided_S a k m : strided a k (S m) = a :: strided (a + k) k m.
Proof.
  unfold strided. simpl. f_equal.
  - f_equal. lia.
  - rewrite <- seq_shift, map_map. apply map_ext. intros j. lia.
Qed.

Lemma strided_snoc a k m :
  strided a k (S m) = strided a k m ++ [a + k * Z.of_nat m].
Proof.
  unfold strided. rewrite seq_S, map_app. reflexivity.
Qed.

Lemma in_strided a k m x :
  In x (strided a k m) <-> exists j, (j < m)%nat /\ x = a + k * Z.of_nat j.
Proof.
  unfold strided. rewrite in_map_iff. split.
  - intros (j & <- & Hj). apply in_seq in Hj. exists j. split; [lia | reflexivity].
  - intros (j & Hj & ->). exists j. split; [reflexivity | apply in_seq; lia].
Qed.

(** A loop whose guard holds exactly at the first [m] counter values, fails
    at the next one, and whose counter does not wrap, leaves by its guard
    after running its body on [strided a k m]. *)
Lemma for_loop_strided cond incr body k (m : nat) :
  forall fuel a s,
    (m <= fuel)%nat ->
    (forall j, (j < m)%nat -> cond (a + k * Z.of_nat j) = true) ->
    cond (a + k * Z.of_nat m) = false ->
    (forall j, (j < m)%nat ->
               incr (a + k * Z.of_nat j) = a + k * Z.of_nat (S j)) ->
    for_loop fuel cond incr body a s
    = (a + k * Z.of_nat m, run_body body (strided a k m) s).
Proof.
  induction m as [|m IH]; intros fuel a s Hf Ht Hfalse Hinc.
  - change (Z.of_nat 0) with 0 in *.
    replace (a + k * 0) with a in * by lia.
    destruct fuel as [|fuel]; [reflexivity|].
    simpl. rewrite Hfalse. reflexivity.
  - destruct fuel as [|fuel]; [lia|].
    simpl for_loop.
    assert (Ha : cond a = true).
    { specialize (Ht 0%nat). simpl in Ht.
      replace (a + k * 0) with a in Ht by lia. apply Ht. lia. }
    rewrite Ha.
    assert (Hi : incr a = a + k).
    { specialize (Hinc 0%nat). simpl in Hinc.
      replace (a + k * 0) with a in Hinc by lia.
      rewrite Hinc by lia. lia. }
    rewrite Hi, strided_S. simpl run_body.
    rewrite (IH fuel (a + k) (body a s)).
    + f_equal. lia.
    + lia.
    + intros j Hj. replace (a + k + k * Z.of_nat j)
        with (a + k * Z.of_nat (S j)) by lia. apply Ht. lia.
    + replace (a + k + k * Z.of_nat m)
        with (a + k * Z.of_nat (S m)) by lia. exact Hfalse.
    + intros j Hj. replace (a + k + k * Z.of_nat j)
        with (a + k * Z.of_nat (S j)) by lia.
      rewrite Hinc by lia. lia.
Qed.

Lemma run_body_app body l1 l2 s :
  run_body body (l1 ++ l2) s = run_body body l2 (run_body body l1 s).
Proof. unfold run_body. apply fold_left_app. Qed.

Lemma strided_app a k m1 m2 :
  strided a k (m1 + m2)
  = strided a k m1 ++ strided (a + k * Z.of_nat m1) k m2.
Proof.
  revert a. induction m1 as [|m1 IH]; intros a.
  - simpl. f_equal. lia.
  - change (S m1 + m2)%nat with (S (m1 + m2)).
    rewrite !strided_S, IH. simpl. do 3 f_equal. lia.
Qed.

(** A body made of [c] consecutive steps of stride [k] runs as the steps
    themselves: unrolling does not change what is executed. *)
Lemma run_body_unrolled body body' k (c : nat) :
  (forall i s, body' i s = run_body body (strided i k c) s) ->
  forall q a s,
    run_body body' (strided a (k * Z.of_nat c) q) s
    = run_body body (strided a k (q * c)) s.
Proof.
  intros Hb. induction q as [|q IH]; intros a s.
  - reflexivity.
  - rewrite strided_S. simpl run_body at 1.
    change (fold_left (fun s i => body' i s) ?l ?x) with (run_body body' l x).
    rewrite IH, Hb.
    change (S q * c)%nat with (c + q * c)%nat.
    rewrite strided_app, run_body_app. reflexivity.
Qed.

Lemma run_body_ext_in body body' l s :
  (forall i s, In i l -> body i s = body' i s) ->
  run_body body l s = run_body body' l s.
Proof.
  revert s. induction l as [|i l IH]; intros s Hb; [reflexivity|].
  simpl. rewrite Hb by (left; reflexivity).
  apply IH. intros j s' Hj. apply Hb. right. exact Hj.
Qed.

Lemma run_body_map body (g : Z -> Z) l s :
  run_body (fun i => body (g i)) l s = run_body body (map g l) s.
Proof.
  revert s. induction l as [|i l IH]; intros s; [reflexivity|].
  simpl. apply IH.
Qed.

Lemma map_strided (g : Z -> Z) a k m c :
  (forall x, g x = c + x) ->
  map g (strided a k m) = strided (c + a) k m.
Proof.
  intros Hg. unfold strided. rewrite map_map. apply map_ext.
  intros j. rewrite Hg. lia.
Qed.

Lemma strided_length a k m : length (strided a k m) = m.
Proof. unfold strided. rewrite length_map, length_seq. reflexivity. Qed.

(** The loop [for (i = a; i < b; ++i)] over [std::size_t]. *)
Lemma for_loop_upto body fuel a b s :
  0 <= a <= b -> b < SizeT.modulus ->
  (Z.to_nat (b - a) <= fuel)%nat ->
  for_loop fuel (fun i => i <? b) (fun i => SizeT.add i 1) body a s
  = (b, run_body body (strided a 1 (Z.to_nat (b - a))) s).
Proof.
  intros Hab Hb Hf.
  rewrite (for_loop_strided _ _ body 1 (Z.to_nat (b - a))).
  - f_equal. lia.
  - exact Hf.
  - intros j Hj. apply Z.ltb_lt. lia.
  - apply Z.ltb_ge. lia.
  - intros j Hj. rewrite SizeTFacts.add_small; [lia|].
    unfold SizeT.in_range. lia.
Qed.

End ForLoopFacts.

(** ** Heap updates *)

Section HeapFacts.

Context {V : Type} `{Arith V}.
Variable cfg : config.
Hypothesis Hcfg : config_ok cfg.

Lemma elem_inj p i j : elem cfg p i = elem cfg p j -> i = j.
Proof.
  unfold elem. intros E. pose proof (size_1_pos cfg Hcfg). nia.
Qed.

Lemma upd_same (h : heap V) a v : upd h a v a = v.
Proof. unfold upd. rewrite Z.eqb_refl. reflexivity. Qed.

Lemma upd_other (h : heap V) a v a' : a' <> a -> upd h a v a' = h a'.
Proof. unfold upd. intros N. apply Z.eqb_neq in N. rewrite N. reflexivity. Qed.

Lemma in_lanes k : In k (lanes cfg) <-> 0 <= k < IT_size cfg.
Proof.
  unfold lanes. rewrite in_map_iff. split.
  - intros (j & <- & Hj). apply in_seq in Hj. lia.
  - intros Hk. exists (Z.to_nat k). split; [lia | apply in_seq; lia].
Qed.

Lemma lanes_strided : lanes cfg = strided 0 1 (Z.to_nat (IT_size cfg)).
Proof. unfold lanes, strided. apply map_ext. intros j. lia. Qed.

Lemma NoDup_strided a k m : k <> 0 -> NoDup (strided a k m).
Proof.
  intros Hk. unfold strided. apply Finite.Injective_map_NoDup.
  - intros x y E. nia.
  - apply seq_NoDup.
Qed.

(** Writing a vector leaves the other addresses alone ... *)
Lemma vec_write_other (g : Z -> Z) (v : Z -> V) l (h : heap V) a :
  (forall k, In k l -> a <> g k) ->
  fold_left (fun h k => upd h (g k) (v k)) l h a = h a.
Proof.
  revert h. induction l as [|k l IH]; intros h Hn; [reflexivity|].
  simpl. rewrite IH.
  - apply upd_other. apply Hn. left. reflexivity.
  - intros k' Hk'. apply Hn. right. exact Hk'.
Qed.

(** ... and puts lane [k] at its address. *)
Lemma vec_write_lane (g : Z -> Z) (v : Z -> V) l (h : heap V) k :
  (forall k1 k2, In k1 l -> In k2 l -> g k1 = g k2 -> k1 = k2) ->
  NoDup l -> In k l ->
  fold_left (fun h k => upd h (g k) (v k)) l h (g k) = v k.
Proof.
  revert h. induction l as [|k0 l IH]; intros h Hinj Hnd Hin; [contradiction|].
  simpl. inversion Hnd as [|? ? Hnotin Hnd']; subst.
  destruct Hin as [-> | Hin].
  - rewrite vec_write_other.
    + apply upd_same.
    + intros k' Hk' E. apply Hinj in E.
      * subst k'. contradiction.
      * left. reflexivity.
      * right. exact Hk'.
  - apply IH; [|exact Hnd'|exact Hin].
    intros k1 k2 H1 H2. apply Hinj; right; assumption.
Qed.

End HeapFacts.

(** ** What the functors execute

    Each functor, on a chunk whose bounds fit [std::size_t], leaves every
    loop by its guard and executes a sequence of scalar and vector steps
    that depends only on the chunk and on the configuration. *)

Section ShapeFacts.

Context {V : Type} `{Arith V}.
Variable cfg : config.
Hypothesis Hcfg : config_ok cfg.

(** [Assign] and its compound siblings run the scalar step on
    [first, first+1, ..., last-1], unrolled or not. *)
Lemma Assign_functor_run op lhs (rhs : Expr V) first last m :
  0 <= first <= last -> last < SizeT.modulus ->
  Assign_functor cfg op lhs rhs first last m
  = run_body (scalar_update cfg Scalar op (scalar_read op rhs) lhs)
             (zseq first (last - first)) m.
Proof.
  intros Hfl Hl. unfold Assign_functor, zseq.
  rewrite SizeTFacts.sub_small by in_size_t.
  set (body := scalar_update cfg Scalar op (scalar_read op rhs) lhs).
  destruct (unroll_normal_loops cfg).
  - rewrite SizeTFacts.land_minus4 by in_size_t.
    set (n := last - first).
    assert (Hq : n - n mod 4 = 4 * (n / 4)) by (pose proof (Z.div_mod n 4); lia).
    assert (Hq0 : 0 <= n / 4) by (apply Z.div_pos; lia).
    assert (Hm : 0 <= n mod 4 < 4) by (apply Z.mod_pos_bound; lia).
    rewrite Hq.
    rewrite SizeTFacts.add_small by in_size_t.
    cbv beta iota.
    rewrite (for_loop_strided (fun i => i <? first + 4 * (n / 4))
               _ _ 4 (Z.to_nat (n / 4))).
    + cbn [snd].
      rewrite for_loop_upto by (unfold fuel_for; lia).
      cbn [snd].
      set (body4 := fun (i : Z) (m0 : machine V) => body (SizeT.add i 3) _).
      rewrite (run_body_ext_in body4
                 (fun i s => run_body body (strided i 1 4) s)).
      * change (strided first 4) with (strided first (1 * Z.of_nat 4)).
        rewrite (run_body_unrolled body _ 1 4) by reflexivity.
        rewrite <- run_body_app.
        replace (first + 4 * (n / 4))
          with (first + 1 * Z.of_nat (Z.to_nat (n / 4) * 4)) by lia.
        rewrite <- strided_app. f_equal. f_equal. lia.
      * intros i s Hi. apply in_strided in Hi. destruct Hi as (j & Hj & ->).
        cbn [strided map seq run_body fold_left]. unfold body4.
        assert (Hd : 4 * (n / 4) <= n) by lia.
        assert (Hj' : 4 * Z.of_nat j + 4 <= 4 * (n / 4)) by lia.
        rewrite !SizeTFacts.add_small by in_size_t.
        repeat (f_equal; try lia).
    + unfold fuel_for. lia.
    + intros j Hj. apply Z.ltb_lt. lia.
    + apply Z.ltb_ge. lia.
    + intros j Hj. rewrite SizeTFacts.add_small by in_size_t. lia.
  - rewrite for_loop_upto by (unfold fuel_for; lia). reflexivity.
Qed.

(** The main loop, entered with at least one full lane left, stores
    [q >= 1] vectors and leaves fewer than four lanes to the remainder. *)
Lemma main_loop_run ph op lhs (rhs : Expr V) last first m :
  0 <= first -> first + IT_size cfg <= last -> fits cfg last ->
  exists q : nat,
    (1 <= q)%nat
    /\ first + IT_size cfg * Z.of_nat q <= last
    /\ last < first + IT_size cfg * Z.of_nat q + 4 * IT_size cfg
    /\ main_loop cfg ph op lhs rhs last first m
       = (first + IT_size cfg * Z.of_nat q,
          run_body (vec_update cfg ph op rhs lhs)
                   (strided first (IT_size cfg) q) m).
Proof.
  intros Hf Hlane [Hl0 Hl].
  pose proof (IT_size_pos cfg Hcfg) as HS.
  set (S := IT_size cfg) in *.
  unfold main_loop. fold S.
  rewrite (SizeTFacts.mul_small S 4) by in_size_t.
  rewrite (SizeTFacts.sub_small last first) by in_size_t.
  set (step := vec_update cfg ph op rhs lhs).
  destruct (unroll_vectorized_loops cfg && (S * 4 <? last - first)) eqn:Hu.
  - apply andb_prop in Hu. destruct Hu as [_ Hu]. apply Z.ltb_lt in Hu.
    set (d := (last - first) / (S * 4)).
    assert (Hd : (S * 4) * d <= last - first < (S * 4) * d + S * 4).
    { pose proof (Z.div_mod (last - first) (S * 4)).
      pose proof (Z.mod_pos_bound (last - first) (S * 4)). fold d in H0. lia. }
    assert (Hd1 : 1 <= d) by nia.
    exists (Z.to_nat d * 4)%nat. split; [lia|]. split; [nia|]. split; [nia|].
    rewrite (for_loop_strided _ _ _ (S * 4) (Z.to_nat d)).
    + f_equal; [nia|].
      set (step4 := fun (i : Z) (m0 : machine V) => step (SizeT.add i _) _).
      rewrite (run_body_ext_in step4
                 (fun i s => run_body step (strided i S 4) s)).
      * change (S * 4) with (S * Z.of_nat 4).
        apply (run_body_unrolled step _ S 4). reflexivity.
      * intros i s Hi. apply in_strided in Hi. destruct Hi as (j & Hj & ->).
        cbn [strided map seq run_body fold_left]. unfold step4.
        assert (Hj' : S * 4 * Z.of_nat j + S * 4 <= S * 4 * d) by nia.
        rewrite !SizeTFacts.mul_small by in_size_t.
        rewrite !SizeTFacts.add_small by in_size_t.
        repeat (f_equal; try lia).
    + unfold fuel_for. nia.
    + intros j Hj.
      assert (Hj' : S * 4 * Z.of_nat j + S * 4 <= S * 4 * d) by nia.
      rewrite SizeTFacts.add_small by in_size_t.
      rewrite SizeTFacts.sub_small by in_size_t.
      apply Z.ltb_lt. lia.
    + rewrite Z2Nat.id by lia.
      rewrite SizeTFacts.add_small by in_size_t.
      rewrite SizeTFacts.sub_small by in_size_t.
      apply Z.ltb_ge. lia.
    + intros j Hj.
      assert (Hj' : S * 4 * Z.of_nat j + S * 4 <= S * 4 * d) by nia.
      rewrite SizeTFacts.add_small by in_size_t.
      lia.
  - set (d := (last - first) / S).
    assert (Hd : S * d <= last - first < S * d + S).
    { pose proof (Z.div_mod (last - first) S).
      pose proof (Z.mod_pos_bound (last - first) S). fold d in H0. lia. }
    assert (Hd1 : 1 <= d) by nia.
    exists (Z.to_nat d). split; [lia|]. split; [lia|]. split; [lia|].
    rewrite (for_loop_strided _ _ _ S (Z.to_nat d)).
    + reflexivity.
    + unfold fuel_for. nia.
    + intros j Hj.
      assert (Hj' : S * Z.of_nat j + S <= S * d) by nia.
      rewrite SizeTFacts.add_small by in_size_t.
      rewrite SizeTFacts.sub_small by in_size_t.
      apply Z.ltb_lt. lia.
    + rewrite Z2Nat.id by lia.
      rewrite SizeTFacts.add_small by in_size_t.
      rewrite SizeTFacts.sub_small by in_size_t.
      apply Z.ltb_ge. lia.
    + intros j Hj.
      assert (Hj' : S * Z.of_nat j + S <= S * d) by nia.
      rewrite SizeTFacts.add_small by in_size_t.
      lia.
Qed.

(** The peel loop runs the scalar step on the first [p] elements of the
    chunk, [p] being the count it returns. *)
Lemma peel_loop_run op lhs (rhs : Expr V) first last m :
  0 <= first <= last -> last < SizeT.modulus ->
  exists p,
    0 <= p <= last - first
    /\ peel_loop cfg op lhs rhs first last m
       = (p, run_body (scalar_update cfg Peel op (at_ rhs) lhs)
                      (zseq first p) m).
Proof.
  intros Hfl Hl. unfold peel_loop, zseq.
  rewrite SizeTFacts.sub_small by in_size_t.
  pose proof (size_1_pos cfg Hcfg) as Hs.
  pose proof (IT_alignment_pos cfg Hcfg) as Ha.
  set (u := elem cfg lhs first mod IT_alignment cfg).
  assert (Hu : 0 <= u) by (apply Z.mod_pos_bound; lia).
  destruct ((size_1 cfg <=? u) && (u mod size_1 cfg =? 0)).
  - set (p := Z.min (u / size_1 cfg) (last - first)).
    assert (Hp : 0 <= p <= last - first).
    { assert (0 <= u / size_1 cfg) by (apply Z.div_pos; lia). lia. }
    exists p. split; [exact Hp|].
    rewrite for_loop_upto by (unfold fuel_for; lia).
    f_equal. rewrite Z.sub_0_r.
    rewrite (run_body_ext_in _
               (fun i s => scalar_update cfg Peel op (at_ rhs) lhs (first + i) s)).
    + rewrite (run_body_map (scalar_update cfg Peel op (at_ rhs) lhs)
                            (fun i => first + i)).
      rewrite (map_strided _ 0 1 _ first) by reflexivity.
      rewrite Z.add_0_r. reflexivity.
    + intros i s Hi. apply in_strided in Hi. destruct Hi as (j & Hj & ->).
      rewrite SizeTFacts.add_small by in_size_t. reflexivity.
  - exists 0. split; [lia|]. reflexivity.
Qed.

Lemma remainder_loop_run op lhs (rhs : Expr V) last first m :
  0 <= first <= last -> last < SizeT.modulus ->
  remainder_loop cfg op lhs rhs last first m
  = run_body (scalar_update cfg Remainder op (at_ rhs) lhs)
             (zseq first (last - first)) m.
Proof.
  intros Hfl Hl. unfold remainder_loop, zseq.
  rewrite for_loop_upto by (unfold fuel_for; lia). reflexivity.
Qed.

(** [vectorized_base::operator()]: [p] peeled elements, then [q] vectors
    of the chosen main loop, then the remainder up to [last]. *)
Lemma vectorized_functor_run op lhs (rhs : Expr V) first last m :
  0 <= first <= last -> fits cfg last ->
  exists (p : Z) (q : nat),
    let c := choose_main cfg (memory_start lhs) first last p in
    let mid := first + p + IT_size cfg * Z.of_nat q in
    p = fst (peel_loop cfg op (memory_start lhs) rhs first last m)
    /\ 0 <= p /\ mid <= last
    /\ (c = NoMain -> q = 0%nat /\ last - (first + p) < IT_size cfg)
    /\ (c <> NoMain -> (1 <= q)%nat)
    /\ vectorized_functor cfg op lhs rhs first last m
       = run_body (scalar_update cfg Remainder op (at_ rhs) (memory_start lhs))
           (zseq mid (last - mid))
           (run_body (vec_update cfg (main_phase c) op rhs (memory_start lhs))
              (strided (first + p) (IT_size cfg) q)
              (run_body (scalar_update cfg Peel op (at_ rhs) (memory_start lhs))
                 (zseq first p) m)).
Proof.
  intros Hfl Hfit. pose proof Hfit as [Hl0 Hl].
  pose proof (IT_size_pos cfg Hcfg) as HS.
  assert (Hlm : last < SizeT.modulus) by lia.
  destruct (peel_loop_run op (memory_start lhs) rhs first last m Hfl Hlm)
    as (p & Hp & Epeel).
  unfold vectorized_functor. rewrite Epeel. cbn [fst].
  assert (Ec : choose_main cfg (memory_start lhs) first last p
               = if IT_size cfg <=? last - first - p then
                   if elem cfg (memory_start lhs) (first + p)
                        mod IT_alignment cfg =? 0
                   then UseAligned else UseUnaligned
                 else NoMain).
  { unfold choose_main.
    rewrite (SizeTFacts.sub_small last first) by in_size_t.
    rewrite SizeTFacts.sub_small by in_size_t. reflexivity. }
  set (m1 := run_body _ (zseq first p) m).
  destruct (IT_size cfg <=? last - first - p) eqn:El.
  - apply Z.leb_le in El.
    destruct (main_loop_run
                (main_phase (choose_main cfg (memory_start lhs) first last p))
                op (memory_start lhs) rhs last (first + p) m1)
      as (q & Hq1 & Hq2 & _ & Emain); [lia | lia | exact Hfit |].
    exists p, q. cbv zeta.
    split; [reflexivity|]. split; [lia|]. split; [lia|].
    split; [rewrite Ec; destruct (_ =? 0); discriminate|].
    split; [intros _; exact Hq1|].
    rewrite (SizeTFacts.add_small first p) by in_size_t.
    unfold aligned_main_loop, unaligned_main_loop.
    rewrite Ec in *.
    destruct (elem cfg (memory_start lhs) (first + p) mod IT_alignment cfg =? 0);
      cbn [main_phase] in Emain |- *; rewrite Emain;
      apply remainder_loop_run; lia.
  - apply Z.leb_gt in El.
    exists p, 0%nat. cbv zeta.
    split; [reflexivity|]. split; [lia|]. split; [lia|].
    split; [intros _; split; [reflexivity | lia]|].
    split; [rewrite Ec; intros N; contradiction N; reflexivity|].
    rewrite Ec.
    rewrite (SizeTFacts.add_small p first) by in_size_t.
    cbn [strided seq map run_body fold_left].
    replace (first + p + IT_size cfg * Z.of_nat 0) with (p + first) by lia.
    apply remainder_loop_run; lia.
Qed.

(** *** The trace of stores *)

Lemma log_run_scalar ph op rd lhs l (m : machine V) :
  log (run_body (scalar_update cfg ph op rd lhs) l m)
  = log m ++ map (pair ph) l.
Proof.
  revert m. induction l as [|i l IH]; intros m; simpl.
  - symmetry. apply app_nil_r.
  - change (fold_left _ l ?x)
      with (run_body (scalar_update cfg ph op rd lhs) l x).
    rewrite IH. simpl. rewrite <- app_assoc. reflexivity.
Qed.

Lemma log_vec_update ph op (rhs : Expr V) lhs i m :
  log (vec_update cfg ph op rhs lhs i m)
  = log m ++ map (pair ph) (zseq i (IT_size cfg)).
Proof.
  simpl. f_equal. unfold zseq. rewrite (lanes_strided cfg).
  assert (E : strided i 1 (Z.to_nat (IT_size cfg))
              = map (fun k => i + k) (strided 0 1 (Z.to_nat (IT_size cfg)))).
  { rewrite (map_strided _ 0 1 _ i) by reflexivity. f_equal. lia. }
  rewrite E, map_map. reflexivity.
Qed.

Lemma log_run_vec ph op (rhs : Expr V) lhs q a m :
  log (run_body (vec_update cfg ph op rhs lhs) (strided a (IT_size cfg) q) m)
  = log m ++ map (pair ph) (zseq a (IT_size cfg * Z.of_nat q)).
Proof.
  pose proof (IT_size_pos cfg Hcfg) as HS.
  revert a m. induction q as [|q IH]; intros a m.
  - simpl. rewrite Z.mul_0_r. symmetry. apply app_nil_r.
  - rewrite strided_S. simpl run_body.
    change (fold_left _ ?l ?x)
      with (run_body (vec_update cfg ph op rhs lhs) l x).
    rewrite IH, log_vec_update, <- app_assoc, <- map_app. do 2 f_equal.
    unfold zseq.
    replace (Z.to_nat (IT_size cfg * Z.of_nat (S q)))
      with (Z.to_nat (IT_size cfg) + Z.to_nat (IT_size cfg * Z.of_nat q))%nat
      by lia.
    rewrite strided_app. do 2 f_equal. lia.
Qed.

Lemma zseq_app a n1 n2 :
  0 <= n1 -> 0 <= n2 -> zseq a (n1 + n2) = zseq a n1 ++ zseq (a + n1) n2.
Proof.
  intros H1 H2. unfold zseq.
  rewrite Z2Nat.inj_add, strided_app by lia. do 2 f_equal. lia.
Qed.

(** The trace of [vectorized_base::operator()]: peel, main, remainder. *)
Lemma vectorized_functor_log op lhs (rhs : Expr V) first last m :
  0 <= first <= last -> fits cfg last ->
  exists (p : Z) (q : nat),
    let c := choose_main cfg (memory_start lhs) first last p in
    let mid := first + p + IT_size cfg * Z.of_nat q in
    p = fst (peel_loop cfg op (memory_start lhs) rhs first last m)
    /\ 0 <= p /\ mid <= last
    /\ (c = NoMain -> q = 0%nat /\ last - (first + p) < IT_size cfg)
    /\ (c <> NoMain -> (1 <= q)%nat /\ IT_size cfg <= last - (first + p))
    /\ log (vectorized_functor cfg op lhs rhs first last m)
       = log m ++ (map (pair Peel) (zseq first p)
                   ++ map (pair (main_phase c))
                          (zseq (first + p) (IT_size cfg * Z.of_nat q))
                   ++ map (pair Remainder) (zseq mid (last - mid))).
Proof.
  intros Hfl Hfit.
  destruct (vectorized_functor_run op lhs rhs first last m Hfl Hfit)
    as (p & q & Ep & Hp & Hmid & Hno & Hyes & E).
  exists p, q. cbv zeta in *.
  split; [exact Ep|]. split; [exact Hp|]. split; [exact Hmid|].
  split; [exact Hno|]. split.
  - intros Hc. split; [apply Hyes, Hc|].
    pose proof (IT_size_pos cfg Hcfg). specialize (Hyes Hc). nia.
  - rewrite E, log_run_scalar, log_run_vec, log_run_scalar.
    rewrite <- !app_assoc. reflexivity.
Qed.

End ShapeFacts.

(** ** Elementwise updates of the destination

    Every store of the evaluator extends the set of destination elements
    that hold their final value; the right-hand side of an element not yet
    stored still reads as in the initial heap. *)

Section UpdateFacts.

Context {V : Type} `{Arith V}.
Variable cfg : config.
Hypothesis Hcfg : config_ok cfg.

Variable op : operator.
Variable e : Expr V.
Variable r : dense.
Variable h0 : heap V.

Hypothesis Hlaws : ExprLaws cfg e.
Hypothesis Hel : elementwise cfg e r.

Local Notation "'cell' i" := (elem cfg (_memory r) i) (at level 10, i at level 9).
Local Notation "'upto' P a b" := (fun j => P j \/ a <= j < b)
  (at level 10, P at level 9, a at level 9, b at level 9).

Lemma updated_ext (P Q : Z -> Prop) h :
  (forall j, P j <-> Q j) ->
  updated cfg op e r P h0 h -> updated cfg op e r Q h0 h.
Proof.
  intros E (Hr & Hv & Ho). split; [|split].
  - intros i Hi. apply Hr, E, Hi.
  - intros i Hi. apply Hv, E, Hi.
  - intros a Ha. apply Ho. intros i Hi. apply Ha, E, Hi.
Qed.

Lemma updated_init : updated cfg op e r (fun _ => False) h0 h0.
Proof. split; [|split]; try contradiction. reflexivity. Qed.

(** An element not yet stored holds its initial value and its right-hand
    side reads as initially. *)
Lemma updated_fresh P h i :
  updated cfg op e r P h0 h -> 0 <= i < _size r -> ~ P i ->
  h (cell i) = h0 (cell i) /\ read_flat e h i = read_flat e h0 i.
Proof.
  intros (Hr & Hv & Ho) Hi Hn. split.
  - apply Ho. intros j Hj E. apply (elem_inj cfg Hcfg) in E. subst. contradiction.
  - apply Hel; [exact Hi|]. intros a Ha. apply Ho.
    intros j Hj. apply Ha; [apply Hr, Hj|]. intros ->. contradiction.
Qed.

(** A store of [w] consecutive elements, each computed in the state before
    the store. *)
Lemma updated_block P h h' i w :
  updated cfg op e r P h0 h ->
  (forall j, i <= j < i + w -> ~ P j /\ 0 <= j < _size r) ->
  (forall j, i <= j < i + w ->
             h' (cell j) = apply_op op (h (cell j)) (read_flat e h j)) ->
  (forall a, (forall j, i <= j < i + w -> a <> cell j) -> h' a = h a) ->
  updated cfg op e r (upto P i (i + w)) h0 h'.
Proof.
  intros Hu Hfresh Hnew Hold.
  pose proof Hu as (Hr & Hv & Ho). split; [|split].
  - intros j [Hp | Hp]; [apply Hr, Hp | apply Hfresh, Hp].
  - intros j [Hp | Hp].
    + rewrite Hold; [apply Hv, Hp|].
      intros j' Hj' E. apply (elem_inj cfg Hcfg) in E. subst j'.
      apply Hfresh in Hj'. tauto.
    + rewrite Hnew by exact Hp.
      destruct (Hfresh j Hp) as [Hn Hrg].
      destruct (updated_fresh P h j Hu Hrg Hn) as [-> ->]. reflexivity.
  - intros a Ha. rewrite Hold.
    + apply Ho. intros j Hj. apply Ha. left. exact Hj.
    + intros j Hj. apply Ha. right. exact Hj.
Qed.

Lemma updated_scalar ph rd P m i :
  (forall h j, rd h j = read_flat e h j) ->
  updated cfg op e r P h0 (mem m) ->
  (forall j, i <= j < i + 1 -> ~ P j /\ 0 <= j < _size r) ->
  updated cfg op e r (upto P i (i + 1)) h0
          (mem (scalar_update cfg ph op rd (_memory r) i m)).
Proof.
  intros Hrd Hu Hfresh. apply (updated_block P (mem m)); try assumption.
  - intros j Hj. assert (j = i) by lia. subst j.
    simpl. rewrite upd_same, Hrd. reflexivity.
  - intros a Ha. simpl. apply upd_other. apply Ha. lia.
Qed.

Lemma updated_vec ph P m i :
  updated cfg op e r P h0 (mem m) ->
  (forall j, i <= j < i + IT_size cfg -> ~ P j /\ 0 <= j < _size r) ->
  updated cfg op e r (upto P i (i + IT_size cfg)) h0
          (mem (vec_update cfg ph op e (_memory r) i m)).
Proof.
  intros Hu Hfresh. apply (updated_block P (mem m)); try assumption.
  - intros j Hj. simpl.
    replace j with (i + (j - i)) at 1 by lia.
    rewrite (vec_write_lane (fun k => cell (i + k))).
    + unfold default_vec_op, dense_load.
      rewrite (load_read_flat cfg e Hlaws) by lia.
      replace (i + (j - i)) with j by lia. reflexivity.
    + intros k1 k2 _ _ E. apply (elem_inj cfg Hcfg) in E. lia.
    + rewrite lanes_strided. apply NoDup_strided. lia.
    + apply in_lanes. lia.
  - intros a Ha. simpl. apply vec_write_other.
    intros k Hk. apply in_lanes in Hk. apply Ha. lia.
Qed.

(** A loop of [q] blocks of width [w] starting at [a]. *)
Lemma updated_run_blocks (body : Z -> machine V -> machine V) w :
  0 <= w ->
  (forall P i m,
      updated cfg op e r P h0 (mem m) ->
      (forall j, i <= j < i + w -> ~ P j /\ 0 <= j < _size r) ->
      updated cfg op e r (upto P i (i + w)) h0 (mem (body i m))) ->
  forall q a P m,
    updated cfg op e r P h0 (mem m) ->
    (forall j, a <= j < a + w * Z.of_nat q -> ~ P j /\ 0 <= j < _size r) ->
    updated cfg op e r (upto P a (a + w * Z.of_nat q)) h0
            (mem (run_body body (strided a w q) m)).
Proof.
  intros Hw Hstep. induction q as [|q IH]; intros a P m Hu Hfresh.
  - simpl. apply (updated_ext P); [|exact Hu]. intros j. intuition lia.
  - rewrite strided_S. simpl run_body.
    change (fold_left (fun s i => body i s) ?l ?x) with (run_body body l x).
    eapply updated_ext; [|apply (IH (a + w) (upto P a (a + w)) (body a m))].
    + intros j. cbv beta. rewrite Nat2Z.inj_succ. intuition nia.
    + apply Hstep; [exact Hu|]. intros j Hj. apply Hfresh. nia.
    + intros j Hj. split; [|apply Hfresh; nia].
      intros [Hp | Hp]; [|lia].
      destruct (Hfresh j) as [Hn _]; [nia | exact (Hn Hp)].
Qed.

(** A scalar loop over [[a, b)]. *)
Lemma updated_scalar_range ph rd P m a b :
  (forall h j, rd h j = read_flat e h j) ->
  0 <= a <= b -> b <= _size r ->
  updated cfg op e r P h0 (mem m) ->
  (forall j, a <= j < b -> ~ P j) ->
  updated cfg op e r (upto P a b) h0
          (mem (run_body (scalar_update cfg ph op rd (_memory r))
                         (zseq a (b - a)) m)).
Proof.
  intros Hrd Hab Hb Hu Hfresh. unfold zseq.
  assert (Hres := updated_run_blocks
                    (scalar_update cfg ph op rd (_memory r)) 1 ltac:(lia)
                    (fun Q i m' Hq Hf => updated_scalar ph rd Q m' i Hrd Hq Hf)
                    (Z.to_nat (b - a)) a P m Hu).
  rewrite Z2Nat.id in Hres by lia.
  eapply updated_ext; [|apply Hres].
  - intros j. cbv beta. intuition lia.
  - intros j Hj. split; [apply Hfresh; lia | lia].
Qed.

(** A vector loop of [q] stores from [a]. *)
Lemma updated_vec_range ph P m a q :
  0 <= a -> a + IT_size cfg * Z.of_nat q <= _size r ->
  updated cfg op e r P h0 (mem m) ->
  (forall j, a <= j < a + IT_size cfg * Z.of_nat q -> ~ P j) ->
  updated cfg op e r (upto P a (a + IT_size cfg * Z.of_nat q)) h0
          (mem (run_body (vec_update cfg ph op e (_memory r))
                         (strided a (IT_size cfg) q) m)).
Proof.
  intros Ha Hb Hu Hfresh.
  pose proof (IT_size_pos cfg Hcfg) as HS.
  apply (updated_run_blocks (vec_update cfg ph op e (_memory r)) (IT_size cfg)
           ltac:(lia)
           (fun Q i m' Hq Hf => updated_vec ph Q m' i Hq Hf) q a P m Hu).
  intros j Hj. split; [apply Hfresh; lia | lia].
Qed.

Lemma scalar_read_flat h j : scalar_read op e h j = read_flat e h j.
Proof.
  destruct op; simpl; try reflexivity; apply (at_read_flat cfg e Hlaws).
Qed.

(** The scalar functor on a chunk of the destination. *)
Lemma Assign_functor_updated P m first last :
  0 <= first <= last -> last <= _size r -> _size r < SizeT.modulus ->
  updated cfg op e r P h0 (mem m) ->
  (forall j, first <= j < last -> ~ P j) ->
  updated cfg op e r (upto P first last) h0
          (mem (Assign_functor cfg op (memory_start r) e first last m)).
Proof.
  intros Hfl Hl Hn Hu Hfresh.
  rewrite (Assign_functor_run cfg) by lia.
  apply updated_scalar_range; auto using scalar_read_flat.
Qed.

(** The vectorized functor on a chunk of the destination. *)
Lemma vectorized_functor_updated P m first last :
  0 <= first <= last -> last <= _size r -> fits cfg (_size r) ->
  updated cfg op e r P h0 (mem m) ->
  (forall j, first <= j < last -> ~ P j) ->
  updated cfg op e r (upto P first last) h0
          (mem (vectorized_functor cfg op r e first last m)).
Proof.
  intros Hfl Hl [Hn0 Hn] Hu Hfresh.
  assert (Hfit : fits cfg last) by (unfold fits; lia).
  destruct (vectorized_functor_run cfg Hcfg op r e first last m Hfl Hfit)
    as (p & q & _ & Hp & Hmid & _ & _ & ->).
  unfold memory_start.
  set (mid := first + p + IT_size cfg * Z.of_nat q) in *.
  pose proof (IT_size_pos cfg Hcfg) as HS.
  assert (Hpq : first + p <= mid) by (unfold mid; nia).
  assert (Hat : forall h j, at_ e h j = read_flat e h j)
    by apply (at_read_flat cfg e Hlaws).
  set (m1 := run_body (scalar_update cfg Peel op (at_ e) (_memory r))
                      (zseq first p) m).
  assert (H1 : updated cfg op e r (upto P first (first + p)) h0 (mem m1)).
  { pose proof (updated_scalar_range Peel (at_ e) P m first (first + p) Hat)
      as X.
    replace (first + p - first) with p in X by lia.
    apply X; try lia; try assumption.
    intros j Hj. apply Hfresh. lia. }
  set (m2 := run_body (vec_update cfg _ op e (_memory r)) _ m1).
  assert (H2 : updated cfg op e r
                 (upto (upto P first (first + p)) (first + p) mid) h0 (mem m2)).
  { apply updated_vec_range; try lia; try assumption.
    intros j Hj [Hpj | Hpj]; [|lia].
    apply (Hfresh j); [fold mid in Hj; lia | exact Hpj]. }
  eapply updated_ext;
    [|apply (updated_scalar_range Remainder (at_ e)
               (upto (upto P first (first + p)) (first + p) mid)
               m2 mid last Hat);
      [lia | lia | exact H2 |]].
  - intros j. cbv beta. intuition lia.
  - intros j Hj [[Hpj | Hpj] | Hpj]; try lia.
    apply (Hfresh j); [lia | exact Hpj].
Qed.

End UpdateFacts.


(** ** Partitioning *)

Section PartitionFacts.

Variable cfg : config.

Lemma chained_le a cs b : chained a cs b -> a <= b.
Proof.
  revert a. induction cs as [|c cs IH]; intros a; simpl.
  - lia.
  - intros (_ & Hle & Hc). apply IH in Hc. lia.
Qed.

Lemma chained_bounds a cs b c :
  chained a cs b -> In c cs -> a <= fst c /\ fst c <= snd c /\ snd c <= b.
Proof.
  revert a. induction cs as [|c0 cs IH]; intros a Hc Hin; [contradiction|].
  simpl in Hc. destruct Hc as (Hf & Hle & Hc).
  destruct Hin as [-> | Hin].
  - apply chained_le in Hc. lia.
  - destruct (IH _ Hc Hin) as (H1 & H2 & H3). lia.
Qed.

Lemma chained_apart a cs b :
  chained a cs b -> ForallOrdPairs chunks_apart cs.
Proof.
  revert a. induction cs as [|c0 cs IH]; intros a Hc; [constructor|].
  simpl in Hc. destruct Hc as (Hf & Hle & Hc).
  constructor; [|exact (IH _ Hc)].
  apply Forall_forall. intros d Hd j Hj0 Hjd.
  destruct (chained_bounds _ _ _ d Hc Hd) as (H1 & _).
  unfold in_chunk in *. lia.
Qed.

Lemma chained_cover a cs b j :
  chained a cs b ->
  (a <= j < b <-> exists c, In c cs /\ in_chunk j c).
Proof.
  revert a. induction cs as [|c0 cs IH]; intros a Hc; simpl in Hc.
  - subst. split; [lia|]. intros (c & [] & _).
  - destruct Hc as (Hf & Hle & Hc). pose proof (chained_le _ _ _ Hc) as Hle'.
    specialize (IH _ Hc). split.
    + intros Hj. destruct (Z_lt_le_dec j (snd c0)) as [Hlt | Hge].
      * exists c0. split; [left; reflexivity | unfold in_chunk; lia].
      * destruct IH as [IH _]. destruct IH as (c & Hin & Hjc); [lia|].
        exists c. split; [right; exact Hin | exact Hjc].
    + intros (c & [-> | Hin] & Hjc).
      * unfold in_chunk in Hjc. lia.
      * destruct IH as [_ IH]. assert (snd c0 <= j < b) by (apply IH; eauto). lia.
Qed.

Lemma chained_app a cs b ds c :
  chained a cs b -> chained b ds c -> chained a (cs ++ ds) c.
Proof.
  revert a. induction cs as [|c0 cs IH]; intros a Hc Hd; simpl in *.
  - subst. exact Hd.
  - destruct Hc as (Hf & Hle & Hc). repeat split; auto.
Qed.

Lemma chained_batches w k :
  0 <= w -> forall t0,
  chained (t0 * w)
          (map (fun t => (t * w, (t + 1) * w)) (strided t0 1 k))
          ((t0 + Z.of_nat k) * w).
Proof.
  intros Hw. induction k as [|k IH]; intros t0.
  - simpl. f_equal. lia.
  - rewrite strided_S. simpl. split; [reflexivity|]. split; [lia|].
    specialize (IH (t0 + 1)).
    replace ((t0 + 1 + Z.of_nat k) * w)
      with ((t0 + Z.pos (Pos.of_succ_nat k)) * w) in IH by lia.
    exact IH.
Qed.

Lemma run_body_snoc (g : Z -> chunk) l q0 :
  run_body (fun t q => q ++ [g t]) l q0 = q0 ++ map g l.
Proof.
  revert q0. induction l as [|t l IH]; intros q0; simpl.
  - symmetry. apply app_nil_r.
  - change (fold_left (fun s i => s ++ [g i]) l (q0 ++ [g t]))
      with (run_body (fun t q => q ++ [g t]) l (q0 ++ [g t])).
    rewrite IH, <- app_assoc. reflexivity.
Qed.

(** The scheduling loop queues the chunks [t*batch, (t+1)*batch)] for
    [t = 0 .. threads-2]. *)
Lemma schedule_tasks_spec batch :
  1 <= threads cfg < SizeT.modulus ->
  0 <= batch -> threads cfg * batch < SizeT.modulus ->
  schedule_tasks cfg batch
  = map (fun t => (t * batch, (t + 1) * batch))
        (strided 0 1 (Z.to_nat (threads cfg - 1))).
Proof.
  intros Ht Hb Hbt. unfold schedule_tasks.
  rewrite SizeTFacts.sub_small by in_size_t.
  rewrite for_loop_upto by (unfold fuel_for; lia).
  cbn [snd]. rewrite Z.sub_0_r.
  rewrite (run_body_ext_in _
             (fun t q => q ++ [(fun t => (t * batch, (t + 1) * batch)) t])).
  - apply (run_body_snoc (fun t => (t * batch, (t + 1) * batch))).
  - intros t q Hin. apply in_strided in Hin. destruct Hin as (j & Hj & ->).
    rewrite (SizeTFacts.add_small _ 1) by in_size_t.
    rewrite !SizeTFacts.mul_small by (unfold SizeT.in_range; nia).
    reflexivity.
Qed.

(** The queued chunks followed by the chunk of the calling thread are
    consecutive from [0] to [n]. *)
Lemma partition_chained n :
  1 <= threads cfg < SizeT.modulus -> 0 <= n < SizeT.modulus ->
  fst (partition cfg n)
  = map (fun t => (t * (n / threads cfg), (t + 1) * (n / threads cfg)))
        (strided 0 1 (Z.to_nat (threads cfg - 1)))
  /\ snd (partition cfg n) = ((threads cfg - 1) * (n / threads cfg), n)
  /\ chained 0 (fst (partition cfg n) ++ [snd (partition cfg n)]) n.
Proof.
  intros Ht Hn. unfold partition. cbn [fst snd].
  set (b := n / threads cfg).
  assert (Hb : 0 <= b) by (apply Z.div_pos; lia).
  assert (Hbn : threads cfg * b <= n) by (apply Z.mul_div_le; lia).
  rewrite schedule_tasks_spec by lia.
  rewrite SizeTFacts.sub_small by in_size_t.
  rewrite SizeTFacts.mul_small by (unfold SizeT.in_range; nia).
  split; [reflexivity|]. split; [reflexivity|].
  apply (chained_app _ _ ((threads cfg - 1) * b)).
  - pose proof (chained_batches b (Z.to_nat (threads cfg - 1)) Hb 0) as Hc.
    replace (0 * b) with 0 in Hc by lia.
    rewrite Z.add_0_l, Z2Nat.id in Hc by lia.
    exact Hc.
  - simpl. split; [reflexivity|]. split; [nia | reflexivity].
Qed.

Lemma chunks_apart_sym c d : chunks_apart c d -> chunks_apart d c.
Proof. intros Hcd j Hd Hc. exact (Hcd j Hc Hd). Qed.

(** Pairwise disjointness does not depend on the order of the chunks. *)
Lemma apart_Permutation (l l' : list chunk) :
  Permutation l l' ->
  ForallOrdPairs chunks_apart l -> ForallOrdPairs chunks_apart l'.
Proof.
  induction 1 as [|x l l' Hp IH|x y l|l l' l'' _ IH1 _ IH2]; intros Hf.
  - exact Hf.
  - inversion Hf as [|? ? Hx Hl]; subst. constructor.
    + eapply Permutation_Forall; eassumption.
    + apply IH, Hl.
  - inversion Hf as [|? ? Hy Hxl]; subst.
    inversion Hxl as [|? ? Hx Hl]; subst.
    inversion Hy as [|? ? Hyx Hyl]; subst.
    constructor; [constructor|constructor]; auto using chunks_apart_sym.
  - auto.
Qed.

End PartitionFacts.

(** ** The strategies of the evaluator *)

Section StrategyFacts.

Context {V : Type} `{Arith V}.
Variable cfg : config.
Hypothesis Hcfg : config_ok cfg.
Variable sched : list chunk -> list chunk.
Hypothesis Hfair : fair sched.

Variable op : operator.
Variable e : Expr V.
Variable r : dense.

Hypothesis Hlaws : ExprLaws cfg e.
Hypothesis Hel : elementwise cfg e r.
Hypothesis Hfits : fits cfg (_size r).

Local Notation "'whole'" := (fun j => 0 <= j < _size r).

(** Chunks run one after the other, in any order. *)
Lemma run_chunks_updated (f : Z -> Z -> machine V -> machine V) h0 :
  (forall P m first last,
      0 <= first <= last -> last <= _size r ->
      updated cfg op e r P h0 (mem m) ->
      (forall j, first <= j < last -> ~ P j) ->
      updated cfg op e r (fun j => P j \/ first <= j < last) h0
              (mem (f first last m))) ->
  forall cs,
    (forall c, In c cs -> 0 <= fst c <= snd c /\ snd c <= _size r) ->
    ForallOrdPairs chunks_apart cs ->
    forall P m,
      updated cfg op e r P h0 (mem m) ->
      (forall c j, In c cs -> in_chunk j c -> ~ P j) ->
      updated cfg op e r (fun j => P j \/ exists c, In c cs /\ in_chunk j c)
              h0 (mem (run_chunks f cs m)).
Proof.
  intros Hf. induction cs as [|c cs IH]; intros Hwf Hap P m Hu Hfresh.
  - simpl. apply (updated_ext cfg op e r h0 P); [|exact Hu].
    intros j. split; [auto|]. intros [Hp | (c & [] & _)]. exact Hp.
  - inversion Hap as [|? ? Hc Hcs]; subst.
    unfold run_chunks. simpl.
    change (fold_left (fun m0 c0 => f (fst c0) (snd c0) m0) cs ?x)
      with (run_chunks f cs x).
    destruct (Hwf c (or_introl eq_refl)) as [Hc1 Hc2].
    eapply updated_ext;
      [|apply (IH (fun c' Hc' => Hwf c' (or_intror Hc')) Hcs
                  (fun j => P j \/ fst c <= j < snd c)
                  (f (fst c) (snd c) m))].
    + intros j. cbv beta. split.
      * intros [[Hp | Hj] | (c' & Hin & Hj)].
        -- left. exact Hp.
        -- right. exists c. split; [left; reflexivity | exact Hj].
        -- right. exists c'. split; [right; exact Hin | exact Hj].
      * intros [Hp | (c' & [<- | Hin] & Hj)].
        -- left. left. exact Hp.
        -- left. right. exact Hj.
        -- right. exists c'. split; assumption.
    + apply Hf; try assumption.
      intros j Hj. apply (Hfresh c j); [left; reflexivity | exact Hj].
    + intros c' j Hin Hj [Hp | Hjc].
      * apply (Hfresh c' j); [right; exact Hin | exact Hj | exact Hp].
      * rewrite Forall_forall in Hc. apply (Hc c' Hin j); assumption.
Qed.

(** The parallel driver: fallback or fork/join over the partition. *)
Lemma parallel_run_updated single (f : Z -> Z -> machine V -> machine V) m :
  updated cfg op e r whole (mem m) (mem (single m)) ->
  (forall P m' first last,
      0 <= first <= last -> last <= _size r ->
      updated cfg op e r P (mem m) (mem m') ->
      (forall j, first <= j < last -> ~ P j) ->
      updated cfg op e r (fun j => P j \/ first <= j < last) (mem m)
              (mem (f first last m'))) ->
  updated cfg op e r whole (mem m)
          (mem (parallel_run cfg sched single f (_size r) m)).
Proof.
  intros Hs Hf. unfold parallel_run, parallel_dispatch.
  destruct ((_size r <? parallel_threshold cfg) || (threads cfg <? 2)) eqn:G.
  - exact Hs.
  - apply orb_false_elim in G. destruct G as [_ Ht]. apply Z.ltb_ge in Ht.
    destruct Hfits as [Hn0 Hn].
    pose proof (threads_range cfg Hcfg) as Htr. unfold SizeT.in_range in Htr.
    pose proof (IT_size_pos cfg Hcfg) as HS.
    destruct (partition_chained cfg (_size r)) as (_ & _ & Hch); [lia | lia |].
    destruct (partition cfg (_size r)) as [queued own]. cbn [fst snd] in Hch.
    set (cs := queued ++ [own]) in *.
    assert (Hperm : Permutation cs (sched cs)) by apply Hfair.
    eapply updated_ext;
      [|apply (run_chunks_updated f (mem m) Hf (sched cs))
          with (P := fun _ => False)].
    + intros j. cbv beta. rewrite (chained_cover 0 cs (_size r) j Hch).
      split.
      * intros [[] | (c & Hin & Hj)]. exists c. split; [|exact Hj].
        eapply Permutation_in; [symmetry; exact Hperm | exact Hin].
      * intros (c & Hin & Hj). right. exists c. split; [|exact Hj].
        eapply Permutation_in; [exact Hperm | exact Hin].
    + intros c Hin.
      assert (Hin' : In c cs)
        by (eapply Permutation_in; [symmetry; exact Hperm | exact Hin]).
      destruct (chained_bounds 0 cs (_size r) c Hch Hin') as (? & ? & ?). lia.
    + apply (apart_Permutation cs); [exact Hperm|].
      apply (chained_apart 0 cs (_size r) Hch).
    + apply updated_init.
    + intros c j _ _ [].
Qed.

(** Every strategy updates exactly the elements of the destination. *)
Lemma standard_evaluate_updated m :
  updated cfg op e r whole (mem m) (mem (standard_evaluate cfg op e r m)).
Proof.
  destruct Hfits as [Hn0 Hn]. pose proof (IT_size_pos cfg Hcfg) as HS.
  unfold standard_evaluate.
  rewrite for_loop_upto by (unfold fuel_for; lia). cbn [snd].
  eapply updated_ext;
    [|apply (updated_scalar_range cfg Hcfg op e r (mem m) Hel Scalar
               (scalar_read op e) (fun _ => False) m 0 (_size r))].
  - intros j. cbv beta. intuition lia.
  - exact (scalar_read_flat cfg op e Hlaws).
  - lia.
  - lia.
  - apply updated_init.
  - intros j _ [].
Qed.

Lemma direct_evaluate_updated m :
  updated cfg op e r whole (mem m) (mem (direct_evaluate cfg op e r m)).
Proof.
  destruct Hfits as [Hn0 Hn]. pose proof (IT_size_pos cfg Hcfg) as HS.
  unfold direct_evaluate.
  eapply updated_ext;
    [|apply (Assign_functor_updated cfg Hcfg op e r (mem m) Hlaws Hel
               (fun _ => False) m 0 (_size r))].
  - intros j. cbv beta. intuition lia.
  - lia.
  - lia.
  - lia.
  - apply updated_init.
  - intros j _ [].
Qed.

Lemma vectorized_evaluate_updated m :
  updated cfg op e r whole (mem m) (mem (vectorized_evaluate cfg op e r m)).
Proof.
  destruct Hfits as [Hn0 Hn].
  unfold vectorized_evaluate.
  eapply updated_ext;
    [|apply (vectorized_functor_updated cfg Hcfg op e r (mem m) Hlaws Hel
               (fun _ => False) m 0 (_size r))].
  - intros j. cbv beta. intuition lia.
  - lia.
  - lia.
  - exact Hfits.
  - apply updated_init.
  - intros j _ [].
Qed.

Lemma parallel_evaluate_updated m :
  updated cfg op e r whole (mem m) (mem (parallel_evaluate cfg sched op e r m)).
Proof.
  destruct Hfits as [Hn0 Hn]. pose proof (IT_size_pos cfg Hcfg) as HS.
  unfold parallel_evaluate. apply parallel_run_updated.
  - apply direct_evaluate_updated.
  - intros P m' first last Hfl Hl Hu Hfr.
    apply Assign_functor_updated; try assumption. lia.
Qed.

Lemma parallel_vectorized_evaluate_updated m :
  updated cfg op e r whole (mem m)
          (mem (parallel_vectorized_evaluate cfg sched op e r m)).
Proof.
  unfold parallel_vectorized_evaluate. apply parallel_run_updated.
  - apply vectorized_evaluate_updated.
  - intros P m' first last Hfl Hl Hu Hfr.
    apply vectorized_functor_updated; assumption.
Qed.

(** The state reached is determined: two heaps that both result from
    updating the whole destination of the same initial heap are equal. *)
Lemma updated_whole_unique h0 h1 h2 :
  updated cfg op e r whole h0 h1 ->
  updated cfg op e r whole h0 h2 ->
  forall a, h1 a = h2 a.
Proof.
  intros (_ & Hv1 & Ho1) (_ & Hv2 & Ho2) a.
  pose proof (size_1_pos cfg Hcfg) as Hs.
  set (i := (a - _memory r) / size_1 cfg).
  destruct (Z.eq_dec a (elem cfg (_memory r) i)) as [Ea | Na].
  - destruct (Z_le_dec 0 i) as [Hi0 | Hi0];
      [destruct (Z_lt_dec i (_size r)) as [Hi1 | Hi1]|].
    + rewrite Ea, Hv1, Hv2 by lia. reflexivity.
    + rewrite Ho1, Ho2; [reflexivity | |];
        intros j Hj E; rewrite Ea in E; apply (elem_inj cfg Hcfg) in E; lia.
    + rewrite Ho1, Ho2; [reflexivity | |];
        intros j Hj E; rewrite Ea in E; apply (elem_inj cfg Hcfg) in E; lia.
  - assert (Hno : forall j, a <> elem cfg (_memory r) j).
    { intros j E. apply Na. subst a. unfold i, elem.
      replace (_memory r + j * size_1 cfg - _memory r) with (j * size_1 cfg)
        by lia.
      rewrite Z.div_mul by lia. reflexivity. }
    rewrite Ho1, Ho2; [reflexivity | |]; intros j _; apply Hno.
Qed.

End StrategyFacts.

(** ** Assignment *)

Section AssignFacts.

Context {V : Type} `{Arith V}.
Variable cfg : config.
Hypothesis Hcfg : config_ok cfg.

Lemma config_ok_with_unroll a b : config_ok (with_unroll cfg a b).
Proof. destruct Hcfg. constructor; assumption. Qed.

Lemma ExprLaws_with_unroll (e : Expr V) a b :
  ExprLaws cfg e -> ExprLaws (with_unroll cfg a b) e.
Proof. intros [L1 L2 L3]. constructor; assumption. Qed.

(** A dense container satisfies the laws of the capability surface. *)
Lemma dense_expr_laws c : ExprLaws cfg (dense_expr cfg c : Expr V).
Proof.
  constructor.
  - reflexivity.
  - reflexivity.
  - intros _. split; reflexivity.
Qed.

(** A container whose elements are not elements of the destination is
    elementwise independent of it. *)
Lemma dense_expr_elementwise c r :
  (forall i j, 0 <= i < _size r -> 0 <= j < _size r ->
               elem cfg (_memory c) i <> elem cfg (_memory r) j) ->
  elementwise cfg (dense_expr cfg c : Expr V) r.
Proof.
  intros Hd h h' i Hi Hagree. simpl. apply Hagree.
  intros j Hj _. apply Hd; assumption.
Qed.

(** The memory copy is the scalar assignment loop. *)
Lemma std_copy_updated (e : Expr V) r m :
  ExprLaws cfg e -> elementwise cfg e r -> fits cfg (_size r) ->
  all_dma e = true -> e_size e = _size r ->
  updated cfg OpAssign e r (fun j => 0 <= j < _size r) (mem m)
          (mem (std_copy cfg (e_memory_start e) (e_memory_end e)
                         (memory_start r) m)).
Proof.
  intros Hlaws Hel [Hn0 Hn] Hdma Hsize.
  pose proof (size_1_pos cfg Hcfg) as Hs.
  destruct (dma_memory cfg e Hlaws Hdma) as [Hread Hend].
  assert (En : (e_memory_end e - e_memory_start e) / size_1 cfg = _size r).
  { rewrite Hend, Hsize. unfold elem.
    replace (e_memory_start e + _size r * size_1 cfg - e_memory_start e)
      with (_size r * size_1 cfg) by lia.
    apply Z.div_mul. lia. }
  unfold std_copy. rewrite En.
  rewrite (for_loop_strided _ _ _ 1 (Z.to_nat (_size r))).
  - cbn [snd].
    rewrite (run_body_ext_in _
               (scalar_update cfg Scalar OpAssign (read_flat e) (_memory r))).
    + replace (strided 0 1 (Z.to_nat (_size r))) with (zseq 0 (_size r - 0))
        by (unfold zseq; rewrite Z.sub_0_r; reflexivity).
      eapply updated_ext;
        [|apply (updated_scalar_range cfg Hcfg OpAssign e r (mem m) Hel Scalar
                   (read_flat e) (fun _ => False) m 0 (_size r))].
      * intros j. cbv beta. intuition lia.
      * reflexivity.
      * lia.
      * lia.
      * apply updated_init.
      * intros j _ [].
    + intros i s _. unfold scalar_update. simpl apply_op.
      rewrite Hread. reflexivity.
  - unfold fuel_for. lia.
  - intros j Hj. apply Z.ltb_lt. lia.
  - apply Z.ltb_ge. lia.
  - intros j Hj. lia.
Qed.

(** [assign_evaluate_impl]: whatever the overload, the destination holds
    the right-hand side as read before the assignment and nothing else
    has changed. *)
Lemma assign_evaluate_impl_updated sched s (e : Expr V) r m :
  fair sched ->
  ExprLaws cfg e -> elementwise cfg e r -> fits cfg (_size r) ->
  e_size e = _size r -> legal s e ->
  updated cfg OpAssign e r (fun j => 0 <= j < _size r) (mem m)
          (mem (assign_evaluate_impl cfg sched s e r m)).
Proof.
  intros Hfair Hlaws Hel Hfits Hsize Hlegal.
  destruct s; simpl.
  - apply standard_evaluate_updated; assumption.
  - apply std_copy_updated; assumption.
  - apply direct_evaluate_updated; assumption.
  - apply vectorized_evaluate_updated; assumption.
  - apply parallel_evaluate_updated; assumption.
  - apply parallel_vectorized_evaluate_updated; assumption.
Qed.

(** The compound operators, whatever the overload. *)
Lemma compound_evaluate_updated sched op s (e : Expr V) r m :
  fair sched ->
  ExprLaws cfg e -> elementwise cfg e r -> fits cfg (_size r) ->
  updated cfg op e r (fun j => 0 <= j < _size r) (mem m)
          (mem (compound_evaluate cfg sched op s e r m)).
Proof.
  intros Hfair Hlaws Hel Hfits.
  destruct s; unfold compound_evaluate, evaluate_only.
  - apply standard_evaluate_updated; assumption.
  - apply direct_evaluate_updated; assumption.
  - apply vectorized_evaluate_updated; assumption.
  - apply parallel_evaluate_updated; assumption.
  - apply parallel_vectorized_evaluate_updated; assumption.
Qed.

End AssignFacts.

(** ** Partition coverage *)

(** C3.  For every total size [n] and worker count [threads >= 1], the
    partition of the parallel strategies queues the chunks
    [[t*floor(n/threads), (t+1)*floor(n/threads))] for [t] in
    [[0, threads-1)] and keeps [[(threads-1)*floor(n/threads), n)] for the
    calling thread; these [threads] chunks are pairwise disjoint and their
    union is exactly [[0, n)]. *)
Theorem partition_coverage (cfg : config) (n : Z) :
  1 <= threads cfg < SizeT.modulus ->
  0 <= n < SizeT.modulus ->
  let batch := n / threads cfg in
  let queued := fst (partition cfg n) in
  let own := snd (partition cfg n) in
  queued = map (fun t => (t * batch, (t + 1) * batch))
               (zseq 0 (threads cfg - 1))
  /\ own = ((threads cfg - 1) * batch, n)
  /\ length (queued ++ [own]) = Z.to_nat (threads cfg)
  /\ ForallOrdPairs chunks_apart (queued ++ [own])
  /\ (forall j, 0 <= j < n <->
                exists c, In c (queued ++ [own]) /\ in_chunk j c).
Proof.
  intros Ht Hn. cbv zeta.
  destruct (partition_chained cfg n Ht Hn) as (Hq & Ho & Hch).
  split; [exact Hq|]. split; [exact Ho|]. split; [|split].
  - rewrite length_app, Hq, length_map, strided_length. simpl. lia.
  - exact (chained_apart _ _ _ Hch).
  - intros j. exact (chained_cover _ _ _ j Hch).
Qed.

Lemma partition_coverage_witness :
  (1 <= threads avx_float < SizeT.modulus)
  /\ (0 <= 23 < SizeT.modulus)
  /\ fst (partition avx_float 23) = [(0, 11)]
  /\ snd (partition avx_float 23) = (11, 23)
  /\ ForallOrdPairs chunks_apart
       (fst (partition avx_float 23) ++ [snd (partition avx_float 23)]).
Proof.
  assert (H1 : 1 <= threads avx_float < SizeT.modulus)
    by (simpl; unfold SizeT.modulus; lia).
  assert (H2 : 0 <= 23 < SizeT.modulus) by (unfold SizeT.modulus; lia).
  destruct (partition_coverage avx_float 23 H1 H2) as (Hq & Ho & _ & Hd & _).
  split; [exact H1|]. split; [exact H2|].
  split; [rewrite Hq; reflexivity|]. split; [rewrite Ho; reflexivity|].
  exact Hd.
Defined.

(** ** The parallel guard *)

(** C4, as stated: multi-threaded execution is chosen only when the element
    count exceeds the threshold and at least two workers are configured.
    With [n] equal to the threshold the code forks. *)
Lemma parallel_guard_counterexample :
  ~ (forall (cfg : config) (n : Z),
        is_multi (parallel_dispatch cfg n) = true ->
        parallel_threshold cfg < n /\ 2 <= threads cfg).
Proof.
  intros Hc. destruct (Hc avx_float 8 eq_refl) as [Hlt _].
  simpl in Hlt. lia.
Qed.

(** C4, amended.  Multi-threaded execution is chosen exactly when the
    element count is at least the parallel threshold and the worker count
    is at least 2; in every other case the parallel strategies are the
    corresponding single-threaded strategy (direct, vectorized) and produce
    its result. *)
Theorem parallel_guard {V : Type} `{Arith V} (cfg : config)
        (sched : list chunk -> list chunk) (op : operator)
        (e : Expr V) (r : dense) (m : machine V) :
  is_multi (parallel_dispatch cfg (_size r))
  = (parallel_threshold cfg <=? _size r) && (2 <=? threads cfg)
  /\ (is_multi (parallel_dispatch cfg (_size r)) = false ->
      parallel_evaluate cfg sched op e r m = direct_evaluate cfg op e r m
      /\ parallel_vectorized_evaluate cfg sched op e r m
         = vectorized_evaluate cfg op e r m)
  /\ (is_multi (parallel_dispatch cfg (_size r)) = true ->
      let cs := fst (partition cfg (_size r)) ++ [snd (partition cfg (_size r))] in
      parallel_evaluate cfg sched op e r m
      = run_chunks (Assign_functor cfg op (memory_start r) e) (sched cs) m
      /\ parallel_vectorized_evaluate cfg sched op e r m
         = run_chunks (vectorized_functor cfg op r e) (sched cs) m).
Proof.
  unfold parallel_evaluate, parallel_vectorized_evaluate, parallel_run,
    parallel_dispatch.
  destruct (partition cfg (_size r)) as [queued own]. cbn [fst snd].
  destruct (Z.ltb_spec (_size r) (parallel_threshold cfg)) as [H1 | H1];
    destruct (Z.ltb_spec (threads cfg) 2) as [H2 | H2];
    destruct (Z.leb_spec (parallel_threshold cfg) (_size r)) as [H3 | H3];
    destruct (Z.leb_spec 2 (threads cfg)) as [H4 | H4];
    try lia; cbn;
    (split; [reflexivity|]); split; intros E;
    try discriminate E; split; reflexivity.
Qed.

Lemma parallel_guard_witness :
  is_multi (parallel_dispatch avx_float (_size square3)) = true
  /\ parallel_evaluate avx_float reverse_pool OpAssign
       (dense_expr avx_float source23) square3 start
     = run_chunks
         (Assign_functor avx_float OpAssign (memory_start square3)
                         (dense_expr avx_float source23))
         [(4, 9); (0, 4)] start
  /\ is_multi (parallel_dispatch avx_float (_size small4)) = false
  /\ parallel_vectorized_evaluate avx_float reverse_pool OpAssign
       (dense_expr avx_float source23) small4 start
     = vectorized_evaluate avx_float OpAssign
         (dense_expr avx_float source23) small4 start.
Proof.
  destruct (parallel_guard avx_float reverse_pool OpAssign
              (dense_expr avx_float source23) square3 start)
    as (_ & _ & Hm).
  destruct (parallel_guard avx_float reverse_pool OpAssign
              (dense_expr avx_float source23) small4 start)
    as (_ & Hs & _).
  assert (E : is_multi (parallel_dispatch avx_float (_size square3)) = true)
    by reflexivity.
  assert (E' : is_multi (parallel_dispatch avx_float (_size small4)) = false)
    by reflexivity.
  split; [exact E|].
  split; [destruct (Hm E) as [Hp _]; exact Hp|].
  split; [exact E'|].
  destruct (Hs E') as [_ Hv]. exact Hv.
Defined.

(** ** Aliasing test *)

(** C9.  For two dense containers [a] and [b], [a.alias(b)] holds if and
    only if the half-open ranges [[a.memory_start(), a.memory_end())] and
    [[b.memory_start(), b.memory_end())] share an address; the test is
    symmetric. *)
Theorem alias_overlap_symmetric {V : Type} (cfg : config) (a b : dense) :
  (alias cfg a (dense_expr cfg b : Expr V) = true <->
   exists x, memory_start a <= x < memory_end cfg a
             /\ memory_start b <= x < memory_end cfg b)
  /\ alias cfg a (dense_expr cfg b : Expr V)
     = alias cfg b (dense_expr cfg a : Expr V).
Proof.
  unfold alias. cbn [all_dma dense_expr e_memory_start e_memory_end].
  unfold memory_alias. split.
  - rewrite Z.ltb_lt. split.
    + intros Hlt. exists (Z.max (memory_start a) (memory_start b)). lia.
    + intros (x & Ha & Hb). lia.
  - rewrite (Z.max_comm (memory_start a)), (Z.min_comm (memory_end cfg a)).
    reflexivity.
Qed.

(** ** Coherence *)



(** ** The peel phase *)

(** C2, at a chunk the parallel vectorized strategy produces (202
    4-byte elements in two chunks, 32-byte alignment, destination allocated
    at an aligned address).  The start of the second chunk is 20 bytes past
    an aligned address: the peel loop processes [20 / 4 = 5] elements, after
    which the destination pointer is 8 bytes past an aligned address and the
    main loop runs with unaligned stores; [(32 - 20) / 4 = 3] peeled elements
    would have aligned it. *)
Theorem peel_misses_alignment :
  let lhs_m := 4096 in
  let rhs : Expr Z := dense_expr avx_float {| _memory := 0; _size := 202 |} in
  snd (partition avx_float 202) = (101, 202)
  /\ lhs_m mod IT_alignment avx_float = 0
  /\ elem avx_float lhs_m 101 mod IT_alignment avx_float = 20
  /\ fst (peel_loop avx_float OpAssign lhs_m rhs 101 202 start) = 5
  /\ elem avx_float lhs_m (101 + 5) mod IT_alignment avx_float = 8
  /\ choose_main avx_float lhs_m 101 202 5 = UseUnaligned
  /\ elem avx_float lhs_m (101 + 3) mod IT_alignment avx_float = 0.
Proof. vm_compute. repeat split. Qed.

(** *** Phases of a trace *)

Lemma phase_runs_app ph tr1 tr2 :
  phase_runs ph (tr1 ++ tr2) = phase_runs ph tr1 || phase_runs ph tr2.
Proof.
  unfold phase_runs, phases_of. rewrite map_app. apply existsb_app.
Qed.

Lemma phase_runs_tagged ph ph' (l : list Z) :
  phase_runs ph (map (pair ph') l)
  = phase_eqb ph ph' && negb (Nat.eqb (length l) 0).
Proof.
  unfold phase_runs, phases_of. rewrite map_map. simpl.
  induction l as [|i l IH]; simpl.
  - symmetry. apply andb_false_r.
  - rewrite IH. destruct (phase_eqb ph ph'); reflexivity.
Qed.

Lemma zseq_length a len : length (zseq a len) = Z.to_nat len.
Proof. apply strided_length. Qed.

Lemma in_phases_tagged ph ph' (l : list Z) :
  In ph (phases_of (map (pair ph') l)) -> ph = ph'.
Proof.
  unfold phases_of. rewrite map_map. simpl.
  rewrite in_map_iff. intros (i & E & _). symmetry. exact E.
Qed.

Lemma indices_tagged ph (l : list Z) : indices_of (map (pair ph) l) = l.
Proof.
  unfold indices_of. rewrite map_map. simpl. apply map_id.
Qed.

Lemma in_zseq a len j : 0 <= len -> In j (zseq a len) <-> a <= j < a + len.
Proof.
  intros Hl. unfold zseq. rewrite in_strided. split.
  - intros (k & Hk & ->). lia.
  - intros Hj. exists (Z.to_nat (j - a)). split; lia.
Qed.

(** ** A misaligned chunk that cannot be peeled *)

(** C10.  When the byte misalignment of the start of the chunk's
    destination is nonzero but smaller than the element size, or not a
    multiple of it, the peel loop processes no element, and the main phase,
    entered when at least one full lane is left, runs with unaligned
    stores: no store of the trace comes from the peel or the aligned main
    loop. *)
Theorem misaligned_chunk_not_peeled {V : Type} `{Arith V} (cfg : config)
        (op : operator) (lhs : dense) (rhs : Expr V)
        (first last : Z) (m : machine V) :
  config_ok cfg -> 0 <= first <= last -> fits cfg last ->
  let u := elem cfg (memory_start lhs) first mod IT_alignment cfg in
  u <> 0 -> (u < size_1 cfg \/ u mod size_1 cfg <> 0) ->
  peel_loop cfg op (memory_start lhs) rhs first last m = (0, m)
  /\ (IT_size cfg <= last - first ->
      choose_main cfg (memory_start lhs) first last 0 = UseUnaligned)
  /\ exists tr,
      log (vectorized_functor cfg op lhs rhs first last m) = log m ++ tr
      /\ phase_runs Peel tr = false
      /\ phase_runs AlignedMain tr = false
      /\ phase_runs UnalignedMain tr = (IT_size cfg <=? last - first).
Proof.
  intros Hcfg Hfl Hfit u Hu Hsmall.
  pose proof Hfit as [Hl0 Hl]. pose proof (IT_size_pos cfg Hcfg) as HS.
  assert (Epeel : peel_loop cfg op (memory_start lhs) rhs first last m = (0, m)).
  { unfold peel_loop. fold u.
    destruct (Z.leb_spec (size_1 cfg) u) as [Hle | Hlt];
      destruct (Z.eqb_spec (u mod size_1 cfg) 0) as [Hz | Hnz];
      cbn [andb]; try reflexivity.
    destruct Hsmall; lia. }
  assert (Ec : choose_main cfg (memory_start lhs) first last 0
               = if IT_size cfg <=? last - first then UseUnaligned else NoMain).
  { unfold choose_main.
    rewrite (SizeTFacts.sub_small last first) by in_size_t.
    rewrite SizeTFacts.sub_small by in_size_t.
    rewrite Z.sub_0_r, Z.add_0_r. fold u.
    destruct (Z.eqb_spec u 0) as [Hz | _]; [contradiction | reflexivity]. }
  split; [exact Epeel|]. split.
  - intros Hlane. rewrite Ec.
    destruct (Z.leb_spec (IT_size cfg) (last - first)); [reflexivity | lia].
  - destruct (vectorized_functor_log cfg Hcfg op lhs rhs first last m Hfl Hfit)
      as (p & q & Ep & Hp & Hmid & Hno & Hyes & Elog).
    cbv zeta in *. rewrite Epeel in Ep. cbn [fst] in Ep. subst p.
    rewrite Ec in *. rewrite Z.add_0_r in *.
    eexists. split; [exact Elog|].
    rewrite !phase_runs_app, !phase_runs_tagged, !zseq_length.
    destruct (Z.leb_spec (IT_size cfg) (last - first)) as [Hlane | Hshort].
    + cbn [main_phase phase_eqb andb orb].
      destruct Hyes as [Hq _]; [discriminate|].
      split; [reflexivity|]. split; [reflexivity|].
      destruct (Nat.eqb_spec (Z.to_nat (IT_size cfg * Z.of_nat q)) 0) as [E0 | _];
        [nia | reflexivity].
    + destruct Hno as [Hq _]; [reflexivity|]. subst q.
      change (Z.of_nat 0) with 0. rewrite Z.mul_0_r.
      cbn [main_phase phase_eqb andb orb Z.to_nat Nat.eqb negb].
      split; [reflexivity|]. split; reflexivity.
Qed.

Lemma misaligned_chunk_not_peeled_witness :
  let lhs := {| _memory := 4104; _size := 12 |} in
  let rhs : Expr Z :=
    dense_expr avx_complex_double {| _memory := 0; _size := 12 |} in
  elem avx_complex_double (memory_start lhs) 5 mod 32 = 24
  /\ peel_loop avx_complex_double OpAdd (memory_start lhs) rhs 5 12 start
     = (0, start)
  /\ choose_main avx_complex_double (memory_start lhs) 5 12 0 = UseUnaligned.
Proof.
  intros lhs rhs.
  assert (Hc : config_ok avx_complex_double)
    by (constructor; simpl; unfold SizeT.in_range, SizeT.modulus; lia).
  assert (Hf : fits avx_complex_double 12)
    by (unfold fits, SizeT.modulus; simpl; lia).
  destruct (misaligned_chunk_not_peeled avx_complex_double OpAdd lhs rhs
              5 12 start Hc ltac:(lia) Hf)
    as (Hp & Hm & _).
  - intros E. vm_compute in E. discriminate E.
  - right. intros E. vm_compute in E. discriminate E.
  - split; [reflexivity|]. split; [exact Hp|]. apply Hm. simpl. lia.
Defined.

(** ** The four phases partition the chunk *)

(** C5, as stated: exactly one of the aligned and unaligned main phases
    runs in every invocation.  On a chunk shorter than a lane neither
    runs. *)
Lemma main_phase_counterexample :
  ~ (forall (cfg : config) (lhs : dense) (rhs : Expr Z) (first last : Z),
        config_ok cfg -> 0 <= first <= last -> fits cfg last ->
        let tr := log (vectorized_functor cfg OpAssign lhs rhs first last start) in
        xorb (phase_runs AlignedMain tr) (phase_runs UnalignedMain tr) = true).
Proof.
  intros Hc.
  assert (Hcfg : config_ok sse_float)
    by (constructor; simpl; unfold SizeT.in_range, SizeT.modulus; lia).
  assert (Hf : fits sse_float 2) by (unfold fits, SizeT.modulus; simpl; lia).
  specialize (Hc sse_float dest23 (dense_expr sse_float source23) 0 2
                 Hcfg ltac:(lia) Hf).
  vm_compute in Hc. discriminate Hc.
Qed.

(** C5, amended.  For every chunk [[first, last)] processed by the
    vectorized loop engine, for assignment and each compound operator, the
    stores of the invocation cover the indices [first, ..., last-1], each
    exactly once, and no index outside the chunk; every store is issued by
    one of the four phases; at most one of the aligned and unaligned main
    phases runs, and one of them does exactly when at least one full lane
    is left after the peel. *)
Theorem phases_partition_chunk {V : Type} `{Arith V} (cfg : config)
        (op : operator) (lhs : dense) (rhs : Expr V)
        (first last : Z) (m : machine V) :
  config_ok cfg -> 0 <= first <= last -> fits cfg last ->
  exists tr,
    log (vectorized_functor cfg op lhs rhs first last m) = log m ++ tr
    /\ indices_of tr = zseq first (last - first)
    /\ NoDup (indices_of tr)
    /\ (forall j, In j (indices_of tr) <-> first <= j < last)
    /\ (forall ph, In ph (phases_of tr) ->
                   ph = Peel \/ ph = AlignedMain \/ ph = UnalignedMain
                   \/ ph = Remainder)
    /\ phase_runs AlignedMain tr && phase_runs UnalignedMain tr = false
    /\ phase_runs AlignedMain tr || phase_runs UnalignedMain tr
       = (IT_size cfg
          <=? last - first
              - fst (peel_loop cfg op (memory_start lhs) rhs first last m)).
Proof.
  intros Hcfg Hfl Hfit. pose proof (IT_size_pos cfg Hcfg) as HS.
  destruct (vectorized_functor_log cfg Hcfg op lhs rhs first last m Hfl Hfit)
    as (p & q & Ep & Hp & Hmid & Hno & Hyes & Elog).
  cbv zeta in *. rewrite <- Ep.
  set (c := choose_main cfg (memory_start lhs) first last p) in *.
  set (mid := first + p + IT_size cfg * Z.of_nat q) in *.
  eexists. split; [exact Elog|].
  assert (Eidx : indices_of
                   (map (pair Peel) (zseq first p)
                    ++ map (pair (main_phase c))
                         (zseq (first + p) (IT_size cfg * Z.of_nat q))
                    ++ map (pair Remainder) (zseq mid (last - mid)))
                 = zseq first (last - first)).
  { unfold indices_of. rewrite !map_app.
    fold (indices_of (map (pair Peel) (zseq first p))).
    fold (indices_of (map (pair (main_phase c))
                          (zseq (first + p) (IT_size cfg * Z.of_nat q)))).
    fold (indices_of (map (pair Remainder) (zseq mid (last - mid)))).
    rewrite !indices_tagged.
    replace (last - first)
      with (p + (IT_size cfg * Z.of_nat q + (last - mid))) by (unfold mid; lia).
    rewrite zseq_app by nia. rewrite zseq_app by nia.
    repeat f_equal; unfold mid; lia. }
  split; [exact Eidx|]. rewrite Eidx.
  split; [apply NoDup_strided; lia|].
  split; [intros j; rewrite in_zseq by lia; lia|].
  split.
  - intros ph. unfold phases_of. rewrite !map_app, !in_app_iff.
    intros [Hin | [Hin | Hin]]; apply in_phases_tagged in Hin; subst ph; auto.
    destruct c; simpl; auto.
  - rewrite !phase_runs_app, !phase_runs_tagged, !zseq_length.
    cbn [phase_eqb andb orb].
    destruct c eqn:Ec.
    + destruct Hno as [Hq Hshort]; [reflexivity|]. subst q.
      change (Z.of_nat 0) with 0. rewrite Z.mul_0_r.
      cbn [main_phase phase_eqb andb orb Z.to_nat Nat.eqb negb].
      split; [reflexivity|]. symmetry. apply Z.leb_gt. lia.
    + destruct Hyes as [Hq Hlane]; [discriminate|].
      cbn [main_phase phase_eqb andb orb].
      destruct (Nat.eqb_spec (Z.to_nat (IT_size cfg * Z.of_nat q)) 0)
        as [E0 | _]; [nia|].
      cbn [negb andb orb].
      split; [reflexivity|]. symmetry. apply Z.leb_le. lia.
    + destruct Hyes as [Hq Hlane]; [discriminate|].
      cbn [main_phase phase_eqb andb orb].
      destruct (Nat.eqb_spec (Z.to_nat (IT_size cfg * Z.of_nat q)) 0)
        as [E0 | _]; [nia|].
      cbn [negb andb orb].
      split; [reflexivity|]. symmetry. apply Z.leb_le. lia.
Qed.

Lemma phases_partition_chunk_witness :
  exists tr,
    log (vectorized_functor sse_float OpAssign dest23
           (dense_expr sse_float source23) 11 23 start) = tr
    /\ indices_of tr = [11; 12; 13; 14; 15; 16; 17; 18; 19; 20; 21; 22].
Proof.
  assert (Hcfg : config_ok sse_float)
    by (constructor; simpl; unfold SizeT.in_range, SizeT.modulus; lia).
  assert (Hf : fits sse_float 23) by (unfold fits, SizeT.modulus; simpl; lia).
  destruct (phases_partition_chunk sse_float OpAssign dest23
              (dense_expr sse_float source23) 11 23 start
              Hcfg ltac:(lia) Hf)
    as (tr & Hlog & Hidx & _).
  exists tr. split; [exact Hlog | exact Hidx].
Defined.

(** ** Strategy independence *)

Lemma fair_reverse_pool : fair reverse_pool.
Proof. intros l. apply Permutation_rev. Qed.

Lemma fair_in_order_pool : fair in_order_pool.
Proof. intros l. apply Permutation_refl. Qed.

Lemma config_ok_avx_float : config_ok avx_float.
Proof.
  constructor; simpl; unfold SizeT.in_range, SizeT.modulus; lia.
Qed.

Lemma source23_elementwise :
  elementwise avx_float (dense_expr avx_float source23 : Expr Z) dest23.
Proof.
  apply dense_expr_elementwise. intros i j Hi Hj.
  cbv [elem source23 dest23 avx_float _memory _size size_1] in *. lia.
Qed.



(** ** Compound assignment *)



(** ** Aliasing and the temporary *)

Section TemporaryFacts.

Context {V : Type} `{Arith V}.
Variable cfg : config.
Hypothesis Hcfg : config_ok cfg.

Lemma transpose_index n k :
  0 < n -> 0 <= k < n * n -> 0 <= (k mod n) * n + k / n < n * n.
Proof.
  intros Hn Hk.
  pose proof (Z.mod_pos_bound k n Hn) as Hm.
  assert (Hd : 0 <= k / n < n).
  { split; [apply Z.div_pos; lia | apply Z.div_lt_upper_bound; lia]. }
  nia.
Qed.

Lemma transpose_flat n i j :
  0 < n -> 0 <= j < n ->
  ((i * n + j) mod n) * n + (i * n + j) / n = j * n + i.
Proof.
  intros Hn Hj.
  assert (Em : (i * n + j) mod n = j).
  { rewrite (Z.add_comm (i * n) j), Z.mod_add by lia.
    apply Z.mod_small. lia. }
  assert (Ed : (i * n + j) / n = i).
  { rewrite Z.div_add_l by lia. rewrite Z.div_small by lia. lia. }
  rewrite Em, Ed. reflexivity.
Qed.

Lemma transpose_expr_laws n c : ExprLaws cfg (transpose_expr cfg n c : Expr V).
Proof.
  constructor.
  - reflexivity.
  - reflexivity.
  - discriminate.
Qed.

(** A transpose view does not read a container disjoint from its
    sub-expression. *)
Lemma transpose_fresh n c tmp :
  0 < n -> _size c = n * n -> _size tmp = _size c ->
  cells_apart cfg tmp c ->
  fresh_for cfg (transpose_expr cfg n c : Expr V) tmp.
Proof.
  intros Hn Hc Ht Hap h h' i Hi Hagree. simpl. apply Hagree.
  intros j Hj E. apply (Hap j ((i mod n) * n + i / n)).
  - exact Hj.
  - rewrite Hc. apply transpose_index; lia.
  - symmetry. exact E.
Qed.

Lemma fresh_elementwise (e : Expr V) tmp :
  fresh_for cfg e tmp -> elementwise cfg e tmp.
Proof.
  intros Hfr h h' i Hi Hagree. apply Hfr; [exact Hi|].
  intros a Ha. apply Hagree. intros j Hj _. apply Ha, Hj.
Qed.

(** Evaluating into a fresh temporary and copying it to the destination
    leaves in the destination the expression as read before the call,
    however the expression aliases the destination. *)
Lemma assign_through_temporary sched s s_copy tmp_memory (e : Expr V) r m :
  fair sched -> ExprLaws cfg e -> fits cfg (_size r) ->
  e_size e = _size r -> legal s e ->
  cells_apart cfg (force_temporary tmp_memory r) r ->
  fresh_for cfg e (force_temporary tmp_memory r) ->
  forall i, 0 <= i < _size r ->
    mem (assign_evaluate_impl cfg sched s_copy
           (dense_expr cfg (force_temporary tmp_memory r)) r
           (assign_evaluate_impl cfg sched s e
              (force_temporary tmp_memory r) m))
        (elem cfg (_memory r) i)
    = read_flat e (mem m) i.
Proof.
  intros Hfair Hlaws Hfits Hsize Hlegal Hap Hfr i Hi.
  set (tmp := force_temporary tmp_memory r) in *.
  set (m1 := assign_evaluate_impl cfg sched s e tmp m).
  assert (H1 : updated cfg OpAssign e tmp (fun j => 0 <= j < _size tmp)
                       (mem m) (mem m1)).
  { apply assign_evaluate_impl_updated; try assumption.
    apply fresh_elementwise, Hfr. }
  assert (H2 : updated cfg OpAssign (dense_expr cfg tmp) r
                       (fun j => 0 <= j < _size r) (mem m1)
                       (mem (assign_evaluate_impl cfg sched s_copy
                               (dense_expr cfg tmp) r m1))).
  { apply assign_evaluate_impl_updated; try assumption.
    - apply dense_expr_laws.
    - apply dense_expr_elementwise. exact Hap.
    - reflexivity.
    - destruct s_copy; simpl; auto. }
  destruct H1 as (_ & Hv1 & _). destruct H2 as (_ & Hv2 & _).
  rewrite (Hv2 i Hi). simpl. apply (Hv1 i Hi).
Qed.

End TemporaryFacts.

Lemma square3_temporary_apart :
  cells_apart avx_float (force_temporary 16384 square3) square3.
Proof.
  intros i j Hi Hj.
  cbv [elem force_temporary square3 avx_float _memory _size size_1] in *. lia.
Qed.

(** C1.  For every assignment [assign(E, R)] where [E] is not linear and
    [E] aliases [R], the evaluator materializes through a temporary of the
    type of [R]: it evaluates [E] into the freshly allocated temporary, then
    the temporary into [R]; the final contents of [R] are [E] as read
    before the assignment, whatever [E] reads of [R].  In particular
    [assign(transpose(R), R)] for a square [R] leaves the transpose of the
    original contents of [R]. *)
Theorem aliased_assign_materializes {V : Type} `{Arith V} (cfg : config)
        (sched : list chunk -> list chunk) (s s_copy : strategy)
        (tmp_memory : Z) (e : Expr V) (r : dense) (m : machine V) :
  config_ok cfg -> fair sched -> ExprLaws cfg e ->
  fits cfg (_size r) -> e_size e = _size r -> legal s e ->
  cells_apart cfg (force_temporary tmp_memory r) r ->
  fresh_for cfg e (force_temporary tmp_memory r) ->
  is_linear e = false -> alias cfg r e = true ->
  let tmp_result := force_temporary tmp_memory r in
  let final := assign_evaluate cfg sched s s_copy tmp_memory e r m in
  final = assign_evaluate_impl cfg sched s_copy (dense_expr cfg tmp_result) r
            (assign_evaluate_impl cfg sched s e tmp_result m)
  /\ (forall i, 0 <= i < _size r ->
        mem final (elem cfg (_memory r) i) = read_flat e (mem m) i)
  /\ (forall n, 0 < n -> _size r = n * n -> e = transpose_expr cfg n r ->
      forall i j, 0 <= i < n -> 0 <= j < n ->
        mem final (elem cfg (_memory r) (i * n + j))
        = mem m (elem cfg (_memory r) (j * n + i))).
Proof.
  intros Hcfg Hfair Hlaws Hfits Hsize Hlegal Hap Hfr Hlin Hal tmp_result final.
  assert (E : final
              = assign_evaluate_impl cfg sched s_copy
                  (dense_expr cfg tmp_result) r
                  (assign_evaluate_impl cfg sched s e tmp_result m)).
  { unfold final, assign_evaluate, evaluate_only. rewrite Hlin, Hal.
    reflexivity. }
  assert (Hv : forall i, 0 <= i < _size r ->
                 mem final (elem cfg (_memory r) i) = read_flat e (mem m) i).
  { intros i Hi. rewrite E.
    apply (assign_through_temporary cfg Hcfg); assumption. }
  split; [exact E|]. split; [exact Hv|].
  intros n Hn Hsq He i j Hi Hj.
  rewrite Hv by (rewrite Hsq; nia).
  rewrite He. simpl. rewrite transpose_flat by lia. reflexivity.
Qed.

Lemma aliased_assign_materializes_witness :
  mem (assign_evaluate avx_float in_order_pool standard fast 16384
         (transpose_expr avx_float 3 square3) square3 start)
      (elem avx_float (_memory square3) (0 * 3 + 1))
  = mem start (elem avx_float (_memory square3) (1 * 3 + 0)).
Proof.
  destruct (aliased_assign_materializes avx_float in_order_pool standard fast
              16384 (transpose_expr avx_float 3 square3) square3 start
              config_ok_avx_float fair_in_order_pool
              (transpose_expr_laws avx_float 3 square3))
    as (_ & _ & Ht).
  - unfold fits, SizeT.modulus. simpl. lia.
  - reflexivity.
  - exact I.
  - exact square3_temporary_apart.
  - apply (transpose_fresh avx_float 3 square3);
      [lia | reflexivity | reflexivity | exact square3_temporary_apart].
  - reflexivity.
  - reflexivity.
  - apply (Ht 3); try lia; reflexivity.
Defined.

(** * Further properties of the evaluator *)

(** ** The other compound operators and the scalar functor *)

(** X1.  [sub_evaluate], [mul_evaluate] and [div_evaluate], whichever of the
    five overloads is selected, leave [R[i] - E(i)], [R[i] * E(i)] and
    [R[i] / E(i)] in [R[i]], both read before the call, and change nothing
    outside the destination. *)
Theorem compound_assign_elementwise {V : Type} `{Arith V} (cfg : config)
        (sched : list chunk -> list chunk) (s : compound_strategy)
        (e : Expr V) (r : dense) (m : machine V) :
  config_ok cfg -> fair sched ->
  ExprLaws cfg e -> elementwise cfg e r -> fits cfg (_size r) ->
  (forall i, 0 <= i < _size r ->
     mem (sub_evaluate cfg sched s e r m) (elem cfg (_memory r) i)
     = v_sub (mem m (elem cfg (_memory r) i)) (read_flat e (mem m) i)
     /\ mem (mul_evaluate cfg sched s e r m) (elem cfg (_memory r) i)
        = v_mul (mem m (elem cfg (_memory r) i)) (read_flat e (mem m) i)
     /\ mem (div_evaluate cfg sched s e r m) (elem cfg (_memory r) i)
        = v_div (mem m (elem cfg (_memory r) i)) (read_flat e (mem m) i))
  /\ (forall a, (forall i, 0 <= i < _size r -> a <> elem cfg (_memory r) i) ->
        mem (sub_evaluate cfg sched s e r m) a = mem m a
        /\ mem (mul_evaluate cfg sched s e r m) a = mem m a
        /\ mem (div_evaluate cfg sched s e r m) a = mem m a).
Proof.
  intros Hcfg Hfair Hlaws Hel Hfits.
  pose proof (fun op => compound_evaluate_updated cfg Hcfg sched op s e r m
                          Hfair Hlaws Hel Hfits) as Hall.
  destruct (Hall OpSub) as (_ & Hs & Hso).
  destruct (Hall OpMul) as (_ & Hm & Hmo).
  destruct (Hall OpDiv) as (_ & Hd & Hdo).
  split.
  - intros i Hi. split; [apply (Hs i Hi) | split; [apply (Hm i Hi) | apply (Hd i Hi)]].
  - intros a Ha. split; [apply Hso, Ha | split; [apply Hmo, Ha | apply Hdo, Ha]].
Qed.

Lemma compound_assign_elementwise_witness :
  mem (sub_evaluate avx_float reverse_pool parallel_vectorized_compound
         (dense_expr avx_float source23) dest23 start)
      (elem avx_float (_memory dest23) 17)
  = 8260 - 68
  /\ mem (mul_evaluate avx_float reverse_pool parallel_compound
         (dense_expr avx_float source23) dest23 start)
      (elem avx_float (_memory dest23) 17)
  = 8260 * 68.
Proof.
  destruct (compound_assign_elementwise avx_float reverse_pool
              parallel_vectorized_compound
              (dense_expr avx_float source23) dest23 start
              config_ok_avx_float fair_reverse_pool
              (dense_expr_laws avx_float source23) source23_elementwise)
    as [Hv _]; [unfold fits, SizeT.modulus; simpl; lia|].
  destruct (compound_assign_elementwise avx_float reverse_pool
              parallel_compound
              (dense_expr avx_float source23) dest23 start
              config_ok_avx_float fair_reverse_pool
              (dense_expr_laws avx_float source23) source23_elementwise)
    as [Hv' _]; [unfold fits, SizeT.modulus; simpl; lia|].
  destruct (Hv 17) as (Hs & _); [simpl; lia|].
  destruct (Hv' 17) as (_ & Hm & _); [simpl; lia|].
  split; [rewrite Hs; reflexivity | rewrite Hm; reflexivity].
Defined.

Lemma mod_evaluate_standard {V : Type} (cfg : config) (v_mod : V -> V -> V)
      (e : Expr V) (r : dense) (m : machine V) :
  mod_evaluate cfg v_mod e r m
  = @standard_evaluate V (mod_arith v_mod) cfg OpAdd e r m.
Proof. reflexivity. Qed.



(** X3.  Unrolling the scalar loop changes nothing: with [unroll_normal_loops]
    on or off, [Assign] and its compound siblings reach the same machine,
    heap and trace; they store the indices of the chunk once each in
    ascending order. *)
Theorem scalar_unrolling_exact {V : Type} `{Arith V} (cfg : config)
        (un1 un2 uv1 uv2 : bool) (op : operator) (lhs : Z) (rhs : Expr V)
        (first last : Z) (m : machine V) :
  0 <= first <= last -> last < SizeT.modulus ->
  Assign_functor (with_unroll cfg un1 uv1) op lhs rhs first last m
  = Assign_functor (with_unroll cfg un2 uv2) op lhs rhs first last m
  /\ log (Assign_functor (with_unroll cfg un1 uv1) op lhs rhs first last m)
     = log m ++ map (pair Scalar) (zseq first (last - first)).
Proof.
  intros Hfl Hl. rewrite !Assign_functor_run by assumption.
  split; [reflexivity|]. apply log_run_scalar.
Qed.

Lemma scalar_unrolling_exact_witness :
  Assign_functor (with_unroll avx_float true true) OpAdd 8192
    (dense_expr avx_float source23) 3 21 start
  = Assign_functor (with_unroll avx_float false true) OpAdd 8192
      (dense_expr avx_float source23) 3 21 start.
Proof.
  apply (scalar_unrolling_exact avx_float true false true true OpAdd 8192
           (dense_expr avx_float source23) 3 21 start).
  - lia.
  - unfold SizeT.modulus. lia.
Defined.

(** ** Empty destinations *)

Section EdgeFacts.

Context {V : Type} `{Arith V}.
Variable cfg : config.
Hypothesis Hcfg : config_ok cfg.

(** The scalar functor on an empty chunk does nothing. *)
Lemma Assign_functor_empty op lhs (rhs : Expr V) k m :
  0 <= k < SizeT.modulus -> Assign_functor cfg op lhs rhs k k m = m.
Proof.
  intros Hk. rewrite Assign_functor_run by lia.
  rewrite Z.sub_diag. reflexivity.
Qed.

(** The vectorized functor on an empty chunk does nothing. *)
Lemma vectorized_functor_empty op lhs (rhs : Expr V) k m :
  0 <= k -> fits cfg k -> vectorized_functor cfg op lhs rhs k k m = m.
Proof.
  intros Hk Hfit. pose proof (IT_size_pos cfg Hcfg) as HS.
  destruct (vectorized_functor_run cfg Hcfg op lhs rhs k k m ltac:(lia) Hfit)
    as (p & q & _ & Hp & Hmid & _ & _ & ->).
  assert (p = 0) by nia. assert (q = 0%nat) by nia. subst p q.
  change (Z.of_nat 0) with 0.
  replace (k + 0 + IT_size cfg * 0) with k by lia.
  rewrite Z.sub_diag. reflexivity.
Qed.

(** Chunks that are all empty leave the machine as it is. *)
Lemma run_chunks_empty (f : Z -> Z -> machine V -> machine V) cs m :
  (forall c, In c cs -> f (fst c) (snd c) m = m) ->
  run_chunks f cs m = m.
Proof.
  induction cs as [|c cs IH]; intros Hf; [reflexivity|].
  unfold run_chunks. simpl. rewrite Hf by (left; reflexivity).
  apply IH. intros c' Hc'. apply Hf. right. exact Hc'.
Qed.

Lemma parallel_run_empty sched single (f : Z -> Z -> machine V -> machine V) m :
  fair sched -> single m = m ->
  (forall k, 0 <= k <= 0 -> f k k m = m) ->
  parallel_run cfg sched single f 0 m = m.
Proof.
  intros Hfair Hs Hf. unfold parallel_run, parallel_dispatch.
  destruct ((0 <? parallel_threshold cfg) || (threads cfg <? 2)) eqn:G;
    [exact Hs|].
  apply orb_false_elim in G. destruct G as [_ Ht]. apply Z.ltb_ge in Ht.
  pose proof (threads_range cfg Hcfg) as Htr. unfold SizeT.in_range in Htr.
  destruct (partition_chained cfg 0) as (_ & _ & Hch);
    [lia | unfold SizeT.modulus; lia |].
  destruct (partition cfg 0) as [queued own]. cbn [fst snd] in Hch.
  apply run_chunks_empty. intros c Hin.
  assert (Hin' : In c (queued ++ [own]))
    by (eapply Permutation_in; [symmetry; apply Hfair | exact Hin]).
  destruct (chained_bounds 0 _ 0 c Hch Hin') as (H1 & H2 & H3).
  replace (snd c) with (fst c) by lia. apply Hf. lia.
Qed.


Lemma standard_evaluate_empty op (e : Expr V) r m :
  _size r = 0 -> standard_evaluate cfg op e r m = m.
Proof. intros Hr. unfold standard_evaluate. rewrite Hr. reflexivity. Qed.

Lemma compound_evaluate_empty sched op s (e : Expr V) r m :
  fair sched -> fits cfg 0 -> _size r = 0 ->
  compound_evaluate cfg sched op s e r m = m.
Proof.
  intros Hfair Hfit Hr.
  assert (Hm : 0 <= 0 < SizeT.modulus) by (unfold SizeT.modulus; lia).
  destruct s; unfold compound_evaluate, evaluate_only, direct_evaluate,
    vectorized_evaluate, parallel_evaluate, parallel_vectorized_evaluate;
    rewrite ?Hr.
  - apply standard_evaluate_empty, Hr.
  - apply Assign_functor_empty, Hm.
  - apply vectorized_functor_empty; [lia | exact Hfit].
  - apply parallel_run_empty;
      [exact Hfair | unfold direct_evaluate; rewrite Hr | intros k Hk].
    + apply Assign_functor_empty, Hm.
    + apply Assign_functor_empty. unfold SizeT.modulus. lia.
  - apply parallel_run_empty;
      [exact Hfair | unfold vectorized_evaluate; rewrite Hr | intros k Hk].
    + apply vectorized_functor_empty; [lia | exact Hfit].
    + assert (k = 0) by lia. subst k.
      apply vectorized_functor_empty; [lia | exact Hfit].
Qed.

Lemma assign_evaluate_impl_empty sched s (e : Expr V) r m :
  fair sched -> fits cfg 0 -> ExprLaws cfg e -> legal s e ->
  e_size e = 0 -> _size r = 0 ->
  assign_evaluate_impl cfg sched s e r m = m.
Proof.
  intros Hfair Hfit Hlaws Hlegal He Hr.
  destruct s;
    try exact (compound_evaluate_empty sched OpAssign standard_compound
                 e r m Hfair Hfit Hr);
    try exact (compound_evaluate_empty sched OpAssign direct_compound
                 e r m Hfair Hfit Hr);
    try exact (compound_evaluate_empty sched OpAssign vectorized_compound
                 e r m Hfair Hfit Hr);
    try exact (compound_evaluate_empty sched OpAssign parallel_compound
                 e r m Hfair Hfit Hr);
    try exact (compound_evaluate_empty sched OpAssign
                 parallel_vectorized_compound e r m Hfair Hfit Hr).
  simpl in Hlegal. simpl. unfold std_copy.
  destruct (dma_memory cfg e Hlaws Hlegal) as [_ Hend].
  rewrite Hend, He. unfold elem.
  replace (e_memory_start e + 0 * size_1 cfg - e_memory_start e) with 0 by lia.
  rewrite Z.div_0_l by (pose proof (size_1_pos cfg Hcfg); lia).
  reflexivity.
Qed.

End EdgeFacts.

(** X4.  An empty destination: every overload of the assignment and of the
    compound operators, and the assignment through the aliasing test, leave
    the machine as it is: no store, no trace. *)
Theorem empty_destination_untouched {V : Type} `{Arith V} (cfg : config)
        (sched : list chunk -> list chunk) (s s_copy : strategy)
        (cs : compound_strategy) (op : operator) (tmp_memory : Z)
        (e : Expr V) (r : dense) (m : machine V) :
  config_ok cfg -> fair sched -> fits cfg 0 ->
  ExprLaws cfg e -> legal s e -> e_size e = 0 -> _size r = 0 ->
  assign_evaluate_impl cfg sched s e r m = m
  /\ compound_evaluate cfg sched op cs e r m = m
  /\ assign_evaluate cfg sched s s_copy tmp_memory e r m = m.
Proof.
  intros Hcfg Hfair Hfit Hlaws Hlegal He Hr.
  split; [apply assign_evaluate_impl_empty; assumption|].
  split; [apply compound_evaluate_empty; assumption|].
  unfold assign_evaluate, evaluate_only.
  destruct (negb (is_linear e) && alias cfg r e).
  - rewrite (assign_evaluate_impl_empty cfg Hcfg sched s e) by assumption.
    apply (assign_evaluate_impl_empty cfg Hcfg sched s_copy
             (dense_expr cfg (force_temporary tmp_memory r)) r m Hfair Hfit
             (dense_expr_laws cfg _));
      [destruct s_copy; simpl; auto | exact Hr | exact Hr].
  - apply assign_evaluate_impl_empty; assumption.
Qed.
Lemma empty_destination_untouched_witness :
  assign_evaluate avx_float reverse_pool parallel_vectorized fast 16384
    (dense_expr avx_float source0) dest0 start = start
  /\ compound_evaluate avx_float reverse_pool OpDiv parallel_compound
       (dense_expr avx_float source0) dest0 start = start.
Proof.
  destruct (empty_destination_untouched avx_float reverse_pool
              parallel_vectorized fast parallel_compound OpDiv 16384
              (dense_expr avx_float source0) dest0 start
              config_ok_avx_float fair_reverse_pool)
    as (_ & Hc & Ha).
  - unfold fits, SizeT.modulus. simpl. lia.
  - apply dense_expr_laws.
  - exact I.
  - reflexivity.
  - reflexivity.
  - split; [exact Ha | exact Hc].
Defined.

(** ** Lengths of the phases of the vectorized functor *)

Section CountFacts.

Context {V : Type} `{Arith V}.
Variable cfg : config.
Hypothesis Hcfg : config_ok cfg.

(** The number of vectors stored by the main loop, entered with at least
    one full lane left. *)
Lemma main_loop_count ph op lhs (rhs : Expr V) last first m :
  0 <= first -> first + IT_size cfg <= last -> fits cfg last ->
  let len := last - first in
  let Q := if unroll_vectorized_loops cfg && (IT_size cfg * 4 <? len)
           then 4 * (len / (IT_size cfg * 4)) else len / IT_size cfg in
  main_loop cfg ph op lhs rhs last first m
  = (first + IT_size cfg * Q,
     run_body (vec_update cfg ph op rhs lhs)
              (strided first (IT_size cfg) (Z.to_nat Q)) m).
Proof.
  intros Hf Hlane [Hl0 Hl]. cbv zeta.
  pose proof (IT_size_pos cfg Hcfg) as HS.
  set (S := IT_size cfg) in *.
  unfold main_loop. fold S.
  rewrite (SizeTFacts.mul_small S 4) by in_size_t.
  rewrite (SizeTFacts.sub_small last first) by in_size_t.
  set (step := vec_update cfg ph op rhs lhs).
  destruct (unroll_vectorized_loops cfg && (S * 4 <? last - first)) eqn:Hu.
  - apply andb_prop in Hu. destruct Hu as [_ Hu]. apply Z.ltb_lt in Hu.
    set (d := (last - first) / (S * 4)).
    assert (Hd : (S * 4) * d <= last - first < (S * 4) * d + S * 4).
    { pose proof (Z.div_mod (last - first) (S * 4)).
      pose proof (Z.mod_pos_bound (last - first) (S * 4)). fold d in H0. lia. }
    assert (Hd1 : 1 <= d) by nia.
    replace (Z.to_nat (4 * d)) with (Z.to_nat d * 4)%nat by lia.
    rewrite (for_loop_strided _ _ _ (S * 4) (Z.to_nat d)).
    + f_equal; [nia|].
      set (step4 := fun (i : Z) (m0 : machine V) => step (SizeT.add i _) _).
      rewrite (run_body_ext_in step4
                 (fun i s => run_body step (strided i S 4) s)).
      * change (S * 4) with (S * Z.of_nat 4).
        apply (run_body_unrolled step _ S 4). reflexivity.
      * intros i s Hi. apply in_strided in Hi. destruct Hi as (j & Hj & ->).
        cbn [strided map seq run_body fold_left]. unfold step4.
        assert (Hj' : S * 4 * Z.of_nat j + S * 4 <= S * 4 * d) by nia.
        rewrite !SizeTFacts.mul_small by in_size_t.
        rewrite !SizeTFacts.add_small by in_size_t.
        repeat (f_equal; try lia).
    + unfold fuel_for. nia.
    + intros j Hj.
      assert (Hj' : S * 4 * Z.of_nat j + S * 4 <= S * 4 * d) by nia.
      rewrite SizeTFacts.add_small by in_size_t.
      rewrite SizeTFacts.sub_small by in_size_t.
      apply Z.ltb_lt. lia.
    + rewrite Z2Nat.id by lia.
      rewrite SizeTFacts.add_small by in_size_t.
      rewrite SizeTFacts.sub_small by in_size_t.
      apply Z.ltb_ge. lia.
    + intros j Hj.
      assert (Hj' : S * 4 * Z.of_nat j + S * 4 <= S * 4 * d) by nia.
      rewrite SizeTFacts.add_small by in_size_t.
      lia.
  - set (d := (last - first) / S).
    assert (Hd : S * d <= last - first < S * d + S).
    { pose proof (Z.div_mod (last - first) S).
      pose proof (Z.mod_pos_bound (last - first) S). fold d in H0. lia. }
    assert (Hd1 : 1 <= d) by nia.
    rewrite (for_loop_strided _ _ _ S (Z.to_nat d)).
    + f_equal. lia.
    + unfold fuel_for. nia.
    + intros j Hj.
      assert (Hj' : S * Z.of_nat j + S <= S * d) by nia.
      rewrite SizeTFacts.add_small by in_size_t.
      rewrite SizeTFacts.sub_small by in_size_t.
      apply Z.ltb_lt. lia.
    + rewrite Z2Nat.id by lia.
      rewrite SizeTFacts.add_small by in_size_t.
      rewrite SizeTFacts.sub_small by in_size_t.
      apply Z.ltb_ge. lia.
    + intros j Hj.
      assert (Hj' : S * Z.of_nat j + S <= S * d) by nia.
      rewrite SizeTFacts.add_small by in_size_t.
      lia.
Qed.

(** The number of elements peeled. *)
Lemma peel_loop_count op lhs (rhs : Expr V) first last m :
  0 <= first <= last -> last < SizeT.modulus ->
  let u := elem cfg lhs first mod IT_alignment cfg in
  fst (peel_loop cfg op lhs rhs first last m)
  = if (size_1 cfg <=? u) && (u mod size_1 cfg =? 0)
    then Z.min (u / size_1 cfg) (last - first) else 0.
Proof.
  intros Hfl Hl u. unfold peel_loop. fold u.
  rewrite SizeTFacts.sub_small by in_size_t.
  pose proof (size_1_pos cfg Hcfg) as Hs.
  pose proof (IT_alignment_pos cfg Hcfg) as Ha.
  assert (Hu : 0 <= u) by (apply Z.mod_pos_bound; lia).
  destruct ((size_1 cfg <=? u) && (u mod size_1 cfg =? 0)); [|reflexivity].
  assert (0 <= u / size_1 cfg) by (apply Z.div_pos; lia).
  rewrite for_loop_upto by (unfold fuel_for; lia).
  cbn [fst]. reflexivity.
Qed.

(** The trace of [vectorized_base::operator()], with the exact length of
    each phase. *)
Lemma vectorized_functor_log_count op lhs (rhs : Expr V) first last m :
  0 <= first <= last -> fits cfg last ->
  let p := fst (peel_loop cfg op (memory_start lhs) rhs first last m) in
  let len := last - first - p in
  let Q := if IT_size cfg <=? len then
             if unroll_vectorized_loops cfg && (IT_size cfg * 4 <? len)
             then 4 * (len / (IT_size cfg * 4)) else len / IT_size cfg
           else 0 in
  let c := choose_main cfg (memory_start lhs) first last p in
  0 <= p <= last - first
  /\ 0 <= Q /\ IT_size cfg * Q <= len
  /\ log (vectorized_functor cfg op lhs rhs first last m)
     = log m ++ (map (pair Peel) (zseq first p)
                 ++ map (pair (main_phase c))
                        (zseq (first + p) (IT_size cfg * Q))
                 ++ map (pair Remainder)
                        (zseq (first + p + IT_size cfg * Q)
                              (len - IT_size cfg * Q))).
Proof.
  intros Hfl Hfit. pose proof Hfit as [Hl0 Hl].
  pose proof (IT_size_pos cfg Hcfg) as HS.
  assert (Hlm : last < SizeT.modulus) by lia.
  destruct (peel_loop_run cfg Hcfg op (memory_start lhs) rhs first last m
              Hfl Hlm) as (p & Hp & Epeel).
  unfold vectorized_functor. rewrite Epeel. cbn [fst]. cbv zeta.
  assert (Ec : choose_main cfg (memory_start lhs) first last p
               = if IT_size cfg <=? last - first - p then
                   if elem cfg (memory_start lhs) (first + p)
                        mod IT_alignment cfg =? 0
                   then UseAligned else UseUnaligned
                 else NoMain).
  { unfold choose_main.
    rewrite (SizeTFacts.sub_small last first) by in_size_t.
    rewrite SizeTFacts.sub_small by in_size_t. reflexivity. }
  set (m1 := run_body _ (zseq first p) m).
  assert (Elog1 : log m1 = log m ++ map (pair Peel) (zseq first p))
    by apply log_run_scalar.
  split; [exact Hp|].
  destruct (IT_size cfg <=? last - first - p) eqn:El.
  - apply Z.leb_le in El.
    pose proof (main_loop_count
                  (main_phase (choose_main cfg (memory_start lhs) first last p))
                  op (memory_start lhs) rhs last (first + p) m1
                  ltac:(lia) ltac:(lia) Hfit) as Emain.
    cbv zeta in Emain.
    replace (last - (first + p)) with (last - first - p) in Emain by lia.
    set (Q := if unroll_vectorized_loops cfg
                 && (IT_size cfg * 4 <? last - first - p)
              then 4 * ((last - first - p) / (IT_size cfg * 4))
              else (last - first - p) / IT_size cfg) in *.
    assert (HQ : 0 <= Q /\ IT_size cfg * Q <= last - first - p).
    { unfold Q.
      destruct (unroll_vectorized_loops cfg
                && (IT_size cfg * 4 <? last - first - p)).
      - pose proof (Z.div_mod (last - first - p) (IT_size cfg * 4)).
        pose proof (Z.mod_pos_bound (last - first - p) (IT_size cfg * 4)).
        assert (0 <= (last - first - p) / (IT_size cfg * 4))
          by (apply Z.div_pos; lia).
        lia.
      - pose proof (Z.div_mod (last - first - p) (IT_size cfg)).
        pose proof (Z.mod_pos_bound (last - first - p) (IT_size cfg)).
        assert (0 <= (last - first - p) / IT_size cfg)
          by (apply Z.div_pos; lia).
        lia. }
    split; [apply HQ|]. split; [apply HQ|].
    rewrite (SizeTFacts.add_small first p) by in_size_t.
    unfold aligned_main_loop, unaligned_main_loop.
    rewrite Ec in *.
    destruct (elem cfg (memory_start lhs) (first + p) mod IT_alignment cfg =? 0);
      cbn [main_phase] in Emain |- *; rewrite Emain;
      rewrite remainder_loop_run by lia;
      rewrite log_run_scalar;
      replace (IT_size cfg * Q) with (IT_size cfg * Z.of_nat (Z.to_nat Q))
        at 2 by lia;
      rewrite log_run_vec by exact Hcfg;
      rewrite Elog1, <- !app_assoc;
      repeat (f_equal; try lia).
  - apply Z.leb_gt in El.
    split; [lia|]. split; [lia|].
    rewrite Ec.
    rewrite (SizeTFacts.add_small p first) by in_size_t.
    rewrite remainder_loop_run by lia.
    rewrite log_run_scalar, Elog1, <- !app_assoc.
    rewrite Z.mul_0_r. cbn [zseq strided Z.to_nat seq map app].
    repeat (f_equal; try lia).
Qed.

End CountFacts.

Lemma stores_by_app ph tr1 tr2 :
  stores_by ph (tr1 ++ tr2) = stores_by ph tr1 + stores_by ph tr2.
Proof.
  unfold stores_by. rewrite filter_app, length_app. lia.
Qed.

Lemma stores_by_tagged ph ph' (l : list Z) :
  stores_by ph (map (pair ph') l)
  = if phase_eqb ph ph' then Z.of_nat (length l) else 0.
Proof.
  unfold stores_by. induction l as [|i l IH]; simpl.
  - destruct (phase_eqb ph ph'); reflexivity.
  - destruct (phase_eqb ph ph') eqn:E; simpl; [lia | exact IH].
Qed.

(** X5.  How many elements each loop of the vectorized functor stores.  The
    peel loop stores the [p] elements it returns; the main loop stores whole
    vectors; the scalar remainder loop stores what is left: with
    [unroll_vectorized_loops] and more than four lanes after the peel that
    is [len mod (4 * IT::size)] elements (up to three whole vectors are left
    to the scalar loop), otherwise [len mod IT::size]. *)
Theorem vector_phase_counts {V : Type} `{Arith V} (cfg : config)
        (op : operator) (lhs : dense) (rhs : Expr V)
        (first last : Z) (m : machine V) :
  config_ok cfg -> 0 <= first <= last -> fits cfg last ->
  let p := fst (peel_loop cfg op (memory_start lhs) rhs first last m) in
  let len := last - first - p in
  let rest := if unroll_vectorized_loops cfg && (IT_size cfg * 4 <? len)
              then len mod (IT_size cfg * 4) else len mod IT_size cfg in
  exists tr,
    log (vectorized_functor cfg op lhs rhs first last m) = log m ++ tr
    /\ stores_by Peel tr = p
    /\ stores_by AlignedMain tr + stores_by UnalignedMain tr = len - rest
    /\ stores_by Remainder tr = rest
    /\ stores_by Scalar tr = 0
    /\ 0 <= rest < 4 * IT_size cfg
    /\ (unroll_vectorized_loops cfg = false -> rest < IT_size cfg).
Proof.
  intros Hcfg Hfl Hfit. pose proof (IT_size_pos cfg Hcfg) as HS.
  destruct (vectorized_functor_log_count cfg Hcfg op lhs rhs first last m
              Hfl Hfit) as (Hp & HQ0 & HQ & Elog).
  cbv zeta in *.
  set (p := fst (peel_loop cfg op (memory_start lhs) rhs first last m)) in *.
  set (len := last - first - p) in *.
  set (c := choose_main cfg (memory_start lhs) first last p) in *.
  eexists. split; [exact Elog|].
  rewrite !stores_by_app, !stores_by_tagged, !zseq_length.
  pose proof (Z.div_mod len (IT_size cfg) ltac:(lia)) as Hd1.
  pose proof (Z.mod_pos_bound len (IT_size cfg) ltac:(lia)) as Hm1.
  pose proof (Z.div_mod len (IT_size cfg * 4) ltac:(lia)) as Hd4.
  pose proof (Z.mod_pos_bound len (IT_size cfg * 4) ltac:(lia)) as Hm4.
  assert (Hsmall : len < IT_size cfg -> len mod IT_size cfg = len)
    by (intros; apply Z.mod_small; lia).
  destruct (Z.leb_spec (IT_size cfg) len) as [Hlane | Hshort];
    destruct (unroll_vectorized_loops cfg);
    destruct (Z.ltb_spec (IT_size cfg * 4) len) as [H4 | H4];
    cbn [andb] in *;
    destruct c; cbn [main_phase phase_eqb];
    repeat split; try discriminate; try lia.
Qed.

Lemma vector_phase_counts_witness :
  exists tr,
    log (vectorized_functor avx_float OpAssign dest64
           (dense_expr avx_float source64) 0 63 start) = tr
    /\ stores_by Remainder tr = 31
    /\ stores_by AlignedMain tr = 32.
Proof.
  destruct (vector_phase_counts avx_float OpAssign dest64
              (dense_expr avx_float source64) 0 63 start
              config_ok_avx_float ltac:(lia))
    as (tr & Hlog & _ & _ & Hr & _).
  - unfold fits, SizeT.modulus. simpl. lia.
  - exists tr. split; [exact Hlog|]. split; [exact Hr|].
    apply app_inv_head with (l := @nil (phase * Z)) in Hlog.
    rewrite <- Hlog. reflexivity.
Defined.

(** X6.  When the peel aligns the destination.  The peel loop stores at most
    [u / sizeof(T)] elements, [u] being the byte misalignment of the start
    of the chunk, and never more than the chunk holds.  On a chunk that
    holds that many elements, the destination pointer after the peel is
    aligned only if it was aligned before ([u = 0], nothing peeled) or the
    misalignment is exactly half the alignment. *)
Theorem peel_aligns_only_at_half {V : Type} `{Arith V} (cfg : config)
        (op : operator) (lhs : Z) (rhs : Expr V)
        (first last : Z) (m : machine V) :
  config_ok cfg -> 0 <= first <= last -> last < SizeT.modulus ->
  let u := elem cfg lhs first mod IT_alignment cfg in
  let p := fst (peel_loop cfg op lhs rhs first last m) in
  0 <= p <= last - first
  /\ p * size_1 cfg <= u
  /\ (u / size_1 cfg <= last - first ->
      (elem cfg lhs (first + p) mod IT_alignment cfg = 0
       <-> u = 0 \/ (2 * u = IT_alignment cfg /\ u mod size_1 cfg = 0))).
Proof.
  intros Hcfg Hfl Hl u p.
  pose proof (size_1_pos cfg Hcfg) as Hs.
  pose proof (IT_alignment_pos cfg Hcfg) as Ha.
  assert (Hu : 0 <= u < IT_alignment cfg) by (apply Z.mod_pos_bound; lia).
  assert (Hq : 0 <= u / size_1 cfg) by (apply Z.div_pos; lia).
  assert (Hqs : u / size_1 cfg * size_1 cfg <= u)
    by (pose proof (Z.mul_div_le u (size_1 cfg) Hs); lia).
  assert (Ep : p = if (size_1 cfg <=? u) && (u mod size_1 cfg =? 0)
                   then Z.min (u / size_1 cfg) (last - first) else 0)
    by (apply (peel_loop_count cfg Hcfg); assumption).
  clearbody p.
  assert (Eafter : elem cfg lhs (first + p) mod IT_alignment cfg
                   = (u + p * size_1 cfg) mod IT_alignment cfg).
  { unfold u, elem.
    rewrite Z.add_mod_idemp_l by lia. f_equal. lia. }
  destruct (Z.leb_spec (size_1 cfg) u) as [Hge | Hlt];
    destruct (Z.eqb_spec (u mod size_1 cfg) 0) as [Hdiv | Hndiv];
    cbn [andb] in Ep.
  - split; [lia|]. split; [nia|]. intros Hfull.
    assert (Ep' : p = u / size_1 cfg) by lia.
    assert (Epu : p * size_1 cfg = u).
    { pose proof (Z.div_mod u (size_1 cfg) ltac:(lia)). lia. }
    rewrite Eafter, Epu. split.
    + intros Hz. right. split; [|exact Hdiv].
      apply Z.mod_divide in Hz; [|lia].
      destruct Hz as [k Hk]. assert (k = 1) by nia. lia.
    + intros [H0 | [H2 _]]; [lia|].
      replace (u + u) with (1 * IT_alignment cfg) by lia.
      apply Z.mod_mul. lia.
  - subst p. split; [lia|]. split; [lia|]. intros _.
    rewrite Eafter, Z.mul_0_l, Z.add_0_r, Z.mod_small by lia.
    split; [intros E; left; exact E | intros [E | [_ E]]; [exact E | contradiction]].
  - subst p. split; [lia|]. split; [lia|]. intros _.
    rewrite Eafter, Z.mul_0_l, Z.add_0_r, Z.mod_small by lia.
    split; [intros E; left; exact E|]. intros [E | [_ E]]; [exact E|].
    apply Z.mod_divide in E; [|lia]. destruct E as [k Hk].
    assert (k = 0) by nia. lia.
  - subst p. split; [lia|]. split; [lia|]. intros _.
    rewrite Eafter, Z.mul_0_l, Z.add_0_r, Z.mod_small by lia.
    split; [intros E; left; exact E | intros [E | [_ E]]; [exact E | contradiction]].
Qed.

Lemma peel_aligns_only_at_half_witness :
  fst (peel_loop avx_float OpAssign 4096
         (dense_expr avx_float source23) 4 23 start) = 4
  /\ elem avx_float 4096 (4 + 4) mod IT_alignment avx_float = 0.
Proof.
  destruct (peel_aligns_only_at_half avx_float OpAssign 4096
              (dense_expr avx_float source23) 4 23 start
              config_ok_avx_float ltac:(lia))
    as (_ & _ & Hiff).
  - unfold SizeT.modulus. lia.
  - split; [reflexivity|].
    apply (proj2 (Hiff ltac:(vm_compute; discriminate))).
    right. split; reflexivity.
Defined.

(** ** Aligned chunks and aligned stores *)

(** X7.  A chunk whose first destination element is at an aligned address:
    nothing is peeled, and the main loop, entered when the chunk holds at
    least one full lane, uses aligned stores only. *)
Theorem aligned_chunk_not_peeled {V : Type} `{Arith V} (cfg : config)
        (op : operator) (lhs : dense) (rhs : Expr V)
        (first last : Z) (m : machine V) :
  config_ok cfg -> 0 <= first <= last -> fits cfg last ->
  elem cfg (memory_start lhs) first mod IT_alignment cfg = 0 ->
  peel_loop cfg op (memory_start lhs) rhs first last m = (0, m)
  /\ exists tr,
      log (vectorized_functor cfg op lhs rhs first last m) = log m ++ tr
      /\ phase_runs Peel tr = false
      /\ phase_runs UnalignedMain tr = false
      /\ phase_runs AlignedMain tr = (IT_size cfg <=? last - first).
Proof.
  intros Hcfg Hfl Hfit Hal.
  pose proof Hfit as [Hl0 Hl]. pose proof (IT_size_pos cfg Hcfg) as HS.
  pose proof (size_1_pos cfg Hcfg) as Hs.
  assert (Epeel : peel_loop cfg op (memory_start lhs) rhs first last m = (0, m)).
  { unfold peel_loop. rewrite Hal.
    destruct (Z.leb_spec (size_1 cfg) 0) as [Hle | Hlt]; [lia | reflexivity]. }
  assert (Ec : choose_main cfg (memory_start lhs) first last 0
               = if IT_size cfg <=? last - first then UseAligned else NoMain).
  { unfold choose_main.
    rewrite (SizeTFacts.sub_small last first) by in_size_t.
    rewrite SizeTFacts.sub_small by in_size_t.
    rewrite Z.sub_0_r, Z.add_0_r, Hal. reflexivity. }
  split; [exact Epeel|].
  destruct (vectorized_functor_log cfg Hcfg op lhs rhs first last m Hfl Hfit)
    as (p & q & Ep & Hp & Hmid & Hno & Hyes & Elog).
  cbv zeta in *. rewrite Epeel in Ep. cbn [fst] in Ep. subst p.
  rewrite Ec in *. rewrite Z.add_0_r in *.
  eexists. split; [exact Elog|].
  rewrite !phase_runs_app, !phase_runs_tagged, !zseq_length.
  destruct (Z.leb_spec (IT_size cfg) (last - first)) as [Hlane | Hshort].
  - cbn [main_phase phase_eqb andb orb].
    destruct Hyes as [Hq _]; [discriminate|].
    split; [reflexivity|]. split; [reflexivity|].
    destruct (Nat.eqb_spec (Z.to_nat (IT_size cfg * Z.of_nat q)) 0) as [E0 | _];
      [nia | reflexivity].
  - destruct Hno as [Hq _]; [reflexivity|]. subst q.
    change (Z.of_nat 0) with 0. rewrite Z.mul_0_r.
    cbn [main_phase phase_eqb andb orb Z.to_nat Nat.eqb negb].
    split; [reflexivity|]. split; reflexivity.
Qed.

Lemma aligned_chunk_not_peeled_witness :
  peel_loop avx_float OpAssign (memory_start dest23)
    (dense_expr avx_float source23) 0 23 start = (0, start)
  /\ exists tr,
       log (vectorized_functor avx_float OpAssign dest23
              (dense_expr avx_float source23) 0 23 start) = tr
       /\ phase_runs UnalignedMain tr = false
       /\ phase_runs AlignedMain tr = true.
Proof.
  destruct (aligned_chunk_not_peeled avx_float OpAssign dest23
              (dense_expr avx_float source23) 0 23 start
              config_ok_avx_float ltac:(lia))
    as (Hp & tr & E & _ & Hu & Ha).
  - unfold fits, SizeT.modulus. simpl. lia.
  - reflexivity.
  - split; [exact Hp|]. exists tr.
    split; [exact E|]. split; [exact Hu | exact Ha].
Defined.

Lemma in_tagged (ph ph' : phase) (j : Z) (l : list Z) :
  In (ph, j) (map (pair ph') l) <-> ph = ph' /\ In j l.
Proof.
  rewrite in_map_iff. split.
  - intros (x & E & Hx). inversion E; subst. split; [reflexivity | exact Hx].
  - intros [-> Hj]. exists j. split; [reflexivity | exact Hj].
Qed.

(** X8.  Aligned stores hit aligned addresses.  When a vector spans a whole
    number of alignment units ([IT::size * sizeof(T)] is a multiple of
    [IT::alignment]), every vector written by the aligned main loop starts
    at an address that is a multiple of [IT::alignment]: for every element
    [j] stored by that loop, the vector that holds it starts at element
    [j - (j - start) mod IT::size], [start] being the first index after the
    peel. *)
Theorem aligned_stores_are_aligned {V : Type} `{Arith V} (cfg : config)
        (op : operator) (lhs : dense) (rhs : Expr V)
        (first last : Z) (m : machine V) :
  config_ok cfg -> 0 <= first <= last -> fits cfg last ->
  (IT_size cfg * size_1 cfg) mod IT_alignment cfg = 0 ->
  let start := first + fst (peel_loop cfg op (memory_start lhs) rhs first last m) in
  exists tr,
    log (vectorized_functor cfg op lhs rhs first last m) = log m ++ tr
    /\ forall j, In (AlignedMain, j) tr ->
         start <= j < last
         /\ elem cfg (memory_start lhs) (j - (j - start) mod IT_size cfg)
              mod IT_alignment cfg = 0.
Proof.
  intros Hcfg Hfl Hfit Hwidth start.
  pose proof (IT_size_pos cfg Hcfg) as HS.
  pose proof (IT_alignment_pos cfg Hcfg) as HA.
  destruct (vectorized_functor_log cfg Hcfg op lhs rhs first last m Hfl Hfit)
    as (p & q & Ep & Hp & Hmid & _ & _ & Elog).
  cbv zeta in *. unfold start. rewrite <- Ep. clear start.
  eexists. split; [exact Elog|].
  intros j Hin. rewrite !in_app_iff, !in_tagged in Hin.
  destruct Hin as [[N _] | [[Hc Hj] | [N _]]]; try discriminate N.
  apply in_zseq in Hj; [|nia].
  split; [lia|].
  assert (Hal : elem cfg (memory_start lhs) (first + p) mod IT_alignment cfg = 0).
  { unfold choose_main in Hc.
    destruct (IT_size cfg <=? SizeT.sub (SizeT.sub last first) p);
      [|discriminate Hc].
    destruct (Z.eqb_spec
                (elem cfg (memory_start lhs) (first + p) mod IT_alignment cfg) 0)
      as [E | _]; [exact E | discriminate Hc]. }
  pose proof (Z.div_mod (j - (first + p)) (IT_size cfg) ltac:(lia)) as Hdm.
  set (k := (j - (first + p)) / IT_size cfg) in *.
  set (lane := (j - (first + p)) mod IT_size cfg) in *.
  clearbody k lane.
  replace (j - lane) with (first + p + IT_size cfg * k) by lia.
  apply Z.mod_divide in Hal; [|lia]. destruct Hal as [a Ha].
  apply Z.mod_divide in Hwidth; [|lia]. destruct Hwidth as [b Hb].
  unfold elem in *.
  replace (memory_start lhs + (first + p + IT_size cfg * k) * size_1 cfg)
    with (memory_start lhs + (first + p) * size_1 cfg
          + k * (IT_size cfg * size_1 cfg)) by ring.
  rewrite Ha, Hb.
  replace (a * IT_alignment cfg + k * (b * IT_alignment cfg))
    with ((a + k * b) * IT_alignment cfg) by ring.
  apply Z.mod_mul. lia.
Qed.

Lemma aligned_stores_are_aligned_witness :
  exists tr,
    log (vectorized_functor avx_float OpAssign dest23
           (dense_expr avx_float source23) 0 23 start) = tr
    /\ In (AlignedMain, 13) tr
    /\ elem avx_float (memory_start dest23) 8 mod IT_alignment avx_float = 0.
Proof.
  destruct (aligned_stores_are_aligned avx_float OpAssign dest23
              (dense_expr avx_float source23) 0 23 start
              config_ok_avx_float ltac:(lia))
    as (tr & E & Hal).
  - unfold fits, SizeT.modulus. simpl. lia.
  - reflexivity.
  - change (log start ++ tr) with tr in E.
    assert (Hin : In (AlignedMain, 13) tr)
      by (rewrite <- E; vm_compute; tauto).
    exists tr. split; [exact E|]. split; [exact Hin|].
    exact (proj2 (Hal 13 Hin)).
Defined.


(** ** Stores of the strategies *)

Section TraceFacts.

Context {V : Type} `{Arith V}.
Variable cfg : config.
Hypothesis Hcfg : config_ok cfg.

Local Notation "'span' c" := (zseq (fst c) (snd c - fst c))
  (at level 10, c at level 9).

Lemma Assign_functor_indices op lhs (rhs : Expr V) first last m :
  0 <= first <= last -> last < SizeT.modulus ->
  exists tr,
    log (Assign_functor cfg op lhs rhs first last m) = log m ++ tr
    /\ indices_of tr = zseq first (last - first).
Proof.
  intros Hfl Hl. rewrite Assign_functor_run by assumption.
  rewrite log_run_scalar. eexists. split; [reflexivity|].
  apply indices_tagged.
Qed.

Lemma vectorized_functor_indices op lhs (rhs : Expr V) first last m :
  0 <= first <= last -> fits cfg last ->
  exists tr,
    log (vectorized_functor cfg op lhs rhs first last m) = log m ++ tr
    /\ indices_of tr = zseq first (last - first).
Proof.
  intros Hfl Hfit. pose proof (IT_size_pos cfg Hcfg) as HS.
  destruct (vectorized_functor_log cfg Hcfg op lhs rhs first last m Hfl Hfit)
    as (p & q & _ & Hp & Hmid & _ & _ & Elog).
  cbv zeta in *.
  set (mid := first + p + IT_size cfg * Z.of_nat q) in *.
  eexists. split; [exact Elog|].
  unfold indices_of. rewrite !map_app.
  fold (indices_of (map (pair Peel) (zseq first p))).
  fold (indices_of
          (map (pair (main_phase
                        (choose_main cfg (memory_start lhs) first last p)))
               (zseq (first + p) (IT_size cfg * Z.of_nat q)))).
  fold (indices_of (map (pair Remainder) (zseq mid (last - mid)))).
  rewrite !indices_tagged.
  replace (last - first)
    with (p + (IT_size cfg * Z.of_nat q + (last - mid))) by (unfold mid; lia).
  rewrite zseq_app by nia. rewrite zseq_app by nia.
  repeat f_equal; unfold mid; lia.
Qed.

(** The stores of a list of chunks run one after the other. *)
Lemma run_chunks_indices (f : Z -> Z -> machine V -> machine V) cs :
  (forall c m, In c cs ->
     exists tr, log (f (fst c) (snd c) m) = log m ++ tr
                /\ indices_of tr = span c) ->
  forall m,
    exists tr, log (run_chunks f cs m) = log m ++ tr
               /\ indices_of tr = flat_map (fun c => span c) cs.
Proof.
  induction cs as [|c cs IH]; intros Hf m.
  - exists []. split; [symmetry; apply app_nil_r | reflexivity].
  - destruct (Hf c m (or_introl eq_refl)) as (tr1 & E1 & I1).
    destruct (IH (fun c' m' Hc' => Hf c' m' (or_intror Hc'))
                 (f (fst c) (snd c) m)) as (tr2 & E2 & I2).
    exists (tr1 ++ tr2). split.
    + unfold run_chunks in *. simpl. rewrite E2, E1, app_assoc. reflexivity.
    + unfold indices_of in *. rewrite map_app, I1, I2. reflexivity.
Qed.

Lemma chained_flat_map a cs b :
  chained a cs b -> flat_map (fun c => span c) cs = zseq a (b - a).
Proof.
  revert a. induction cs as [|c cs IH]; intros a Hc; simpl in Hc.
  - subst. rewrite Z.sub_diag. reflexivity.
  - destruct Hc as (Hf & Hle & Hc). pose proof (chained_le _ _ _ Hc) as Hle'.
    simpl. rewrite (IH _ Hc), Hf.
    replace (b - a) with ((snd c - a) + (b - snd c)) by lia.
    rewrite zseq_app by lia. do 2 f_equal. lia.
Qed.

Lemma parallel_run_indices sched single
      (f : Z -> Z -> machine V -> machine V) n m :
  fair sched -> 0 <= n < SizeT.modulus ->
  (exists tr, log (single m) = log m ++ tr /\ indices_of tr = zseq 0 n) ->
  (forall c m', 0 <= fst c <= snd c -> snd c <= n ->
     exists tr, log (f (fst c) (snd c) m') = log m' ++ tr
                /\ indices_of tr = span c) ->
  exists tr,
    log (parallel_run cfg sched single f n m) = log m ++ tr
    /\ Permutation (indices_of tr) (zseq 0 n).
Proof.
  intros Hfair Hn Hs Hf. unfold parallel_run, parallel_dispatch.
  destruct ((n <? parallel_threshold cfg) || (threads cfg <? 2)) eqn:G.
  - destruct Hs as (tr & E & I). exists tr. split; [exact E|].
    rewrite I. apply Permutation_refl.
  - apply orb_false_elim in G. destruct G as [_ Ht]. apply Z.ltb_ge in Ht.
    pose proof (threads_range cfg Hcfg) as Htr. unfold SizeT.in_range in Htr.
    destruct (partition_chained cfg n) as (_ & _ & Hch); [lia | lia |].
    destruct (partition cfg n) as [queued own]. cbn [fst snd] in Hch.
    set (cs := queued ++ [own]) in *.
    assert (Hperm : Permutation cs (sched cs)) by apply Hfair.
    destruct (run_chunks_indices f (sched cs)) with (m := m)
      as (tr & E & I).
    + intros c m' Hin. apply Hf.
      * assert (Hin' : In c cs)
          by (eapply Permutation_in; [symmetry; exact Hperm | exact Hin]).
        destruct (chained_bounds 0 cs n c Hch Hin') as (? & ? & ?). lia.
      * assert (Hin' : In c cs)
          by (eapply Permutation_in; [symmetry; exact Hperm | exact Hin]).
        destruct (chained_bounds 0 cs n c Hch Hin') as (? & ? & ?). lia.
    + exists tr. split; [exact E|]. rewrite I.
      rewrite <- (Z.sub_0_r n). rewrite <- (chained_flat_map 0 cs n Hch).
      apply Permutation_flat_map. symmetry. exact Hperm.
Qed.

End TraceFacts.

(** X9.  Every overload of the compound operators (and, with the operator
    [=], the standard, direct, vectorized, parallel and parallel-vectorized
    overloads of the assignment) stores each index of the destination
    exactly once, and no other index, whatever the expression, the
    unrolling toggles, the number of threads and the order in which the
    pool retires the chunks. *)
Theorem every_index_stored_once {V : Type} `{Arith V} (cfg : config)
        (sched : list chunk -> list chunk) (op : operator)
        (s : compound_strategy) (e : Expr V) (r : dense) (m : machine V) :
  config_ok cfg -> fair sched -> fits cfg (_size r) ->
  exists tr,
    log (compound_evaluate cfg sched op s e r m) = log m ++ tr
    /\ Permutation (indices_of tr) (zseq 0 (_size r))
    /\ NoDup (indices_of tr)
    /\ (forall j, In j (indices_of tr) <-> 0 <= j < _size r).
Proof.
  intros Hcfg Hfair Hfits. pose proof Hfits as [Hn0 Hn].
  pose proof (IT_size_pos cfg Hcfg) as HS.
  assert (Hm : _size r < SizeT.modulus) by lia.
  assert (Hseq : forall tr,
             indices_of tr = zseq 0 (_size r) ->
             Permutation (indices_of tr) (zseq 0 (_size r)))
    by (intros tr ->; apply Permutation_refl).
  assert (Hstd : exists tr,
             log (standard_evaluate cfg op e r m) = log m ++ tr
             /\ indices_of tr = zseq 0 (_size r)).
  { unfold standard_evaluate.
    rewrite for_loop_upto by (unfold fuel_for; lia). cbn [snd].
    rewrite (log_run_scalar cfg). eexists. split; [reflexivity|].
    rewrite indices_tagged, Z.sub_0_r. reflexivity. }
  assert (Hdir : exists tr,
             log (direct_evaluate cfg op e r m) = log m ++ tr
             /\ indices_of tr = zseq 0 (_size r)).
  { unfold direct_evaluate.
    destruct (Assign_functor_indices cfg op (memory_start r) e 0 (_size r) m)
      as (tr & E & I); [lia | lia |].
    rewrite Z.sub_0_r in I. exists tr. split; assumption. }
  assert (Hvec : exists tr,
             log (vectorized_evaluate cfg op e r m) = log m ++ tr
             /\ indices_of tr = zseq 0 (_size r)).
  { unfold vectorized_evaluate.
    destruct (vectorized_functor_indices cfg Hcfg op r e 0 (_size r) m)
      as (tr & E & I); [lia | exact Hfits |].
    rewrite Z.sub_0_r in I. exists tr. split; assumption. }
  assert (Hall : exists tr,
             log (compound_evaluate cfg sched op s e r m) = log m ++ tr
             /\ Permutation (indices_of tr) (zseq 0 (_size r))).
  { destruct s; unfold compound_evaluate, evaluate_only.
    - destruct Hstd as (tr & E & I). exists tr. split; auto.
    - destruct Hdir as (tr & E & I). exists tr. split; auto.
    - destruct Hvec as (tr & E & I). exists tr. split; auto.
    - unfold parallel_evaluate.
      apply (parallel_run_indices cfg Hcfg); [exact Hfair | lia | exact Hdir |].
      intros c m' Hc Hle. apply Assign_functor_indices; lia.
    - unfold parallel_vectorized_evaluate.
      apply (parallel_run_indices cfg Hcfg); [exact Hfair | lia | exact Hvec |].
      intros c m' Hc Hle. apply (vectorized_functor_indices cfg Hcfg); [lia|].
      unfold fits. lia. }
  destruct Hall as (tr & E & P). exists tr.
  split; [exact E|]. split; [exact P|]. split.
  - apply (Permutation_NoDup (Permutation_sym P)).
    apply NoDup_strided. lia.
  - intros j. rewrite <- (in_zseq 0 (_size r) j) by lia.
    split; intros Hin; eapply Permutation_in; try exact Hin;
      [exact P | symmetry; exact P].
Qed.

Lemma every_index_stored_once_witness :
  exists tr,
    log (compound_evaluate avx_float reverse_pool OpMul
           parallel_vectorized_compound (dense_expr avx_float source23)
           dest23 start) = tr
    /\ NoDup (indices_of tr)
    /\ indices_of tr
       = [11; 12; 13; 14; 15; 16; 17; 18; 19; 20; 21; 22;
          0; 1; 2; 3; 4; 5; 6; 7; 8; 9; 10].
Proof.
  destruct (every_index_stored_once avx_float reverse_pool OpMul
              parallel_vectorized_compound (dense_expr avx_float source23)
              dest23 start config_ok_avx_float fair_reverse_pool)
    as (tr & E & _ & Hnd & _).
  - unfold fits, SizeT.modulus. simpl. lia.
  - exists tr. split; [exact E|]. split; [exact Hnd|].
    change (log start ++ tr) with tr in E. rewrite <- E. reflexivity.
Defined.

(** X10.  Load of the threads.  Every chunk queued on the pool holds exactly
    [floor(n / threads)] elements and the chunk of the calling thread holds
    that many plus the whole remainder [n mod threads]; with fewer elements
    than threads, every queued chunk is empty and the calling thread
    processes the whole range alone. *)
Theorem partition_chunk_sizes (cfg : config) (n : Z) :
  1 <= threads cfg < SizeT.modulus -> 0 <= n < SizeT.modulus ->
  let queued := fst (partition cfg n) in
  let own := snd (partition cfg n) in
  (forall c, In c queued -> snd c - fst c = n / threads cfg)
  /\ snd own - fst own = n / threads cfg + n mod threads cfg
  /\ (n < threads cfg ->
      (forall c, In c queued -> c = (0, 0)) /\ own = (0, n)).
Proof.
  intros Ht Hn queued own.
  destruct (partition_chained cfg n Ht Hn) as (Hq & Ho & _).
  fold queued in Hq. fold own in Ho.
  pose proof (Z.div_mod n (threads cfg) ltac:(lia)) as Hdm.
  split; [|split].
  - intros c Hc. rewrite Hq in Hc. apply in_map_iff in Hc.
    destruct Hc as (t & <- & _). cbn [fst snd]. lia.
  - rewrite Ho. cbn [fst snd]. lia.
  - intros Hsmall. rewrite Hq, Ho, (Z.div_small n (threads cfg)) by lia.
    split.
    + intros c Hc. apply in_map_iff in Hc. destruct Hc as (t & <- & _).
      f_equal; lia.
    + f_equal. lia.
Qed.

Lemma partition_chunk_sizes_witness :
  snd (snd (partition avx_float 23)) - fst (snd (partition avx_float 23))
  = 11 + 1.
Proof.
  destruct (partition_chunk_sizes avx_float 23) as (_ & Ho & _).
  - simpl. unfold SizeT.modulus. lia.
  - unfold SizeT.modulus. lia.
  - exact Ho.
Defined.

(** ** Assignment, with and without a temporary *)

Section WholeAssignFacts.

Context {V : Type} `{Arith V}.
Variable cfg : config.
Hypothesis Hcfg : config_ok cfg.

(** Containers whose address ranges do not overlap share no element. *)
Lemma ranges_apart c r :
  memory_end cfg c <= memory_start r \/ memory_end cfg r <= memory_start c ->
  cells_apart cfg c r.
Proof.
  pose proof (size_1_pos cfg Hcfg) as Hs.
  unfold memory_end, memory_start, elem. intros Hd i j Hi Hj. unfold elem.
  nia.
Qed.

(** The two assignments of the aliasing path. *)
Lemma assign_through_temporary_updated sched s s_copy tmp_memory
      (e : Expr V) r m :
  fair sched -> ExprLaws cfg e -> fits cfg (_size r) ->
  e_size e = _size r -> legal s e ->
  cells_apart cfg (force_temporary tmp_memory r) r ->
  fresh_for cfg e (force_temporary tmp_memory r) ->
  let tmp := force_temporary tmp_memory r in
  let m1 := assign_evaluate_impl cfg sched s e tmp m in
  updated cfg OpAssign e tmp (fun j => 0 <= j < _size tmp) (mem m) (mem m1)
  /\ updated cfg OpAssign (dense_expr cfg tmp) r (fun j => 0 <= j < _size r)
             (mem m1)
             (mem (assign_evaluate_impl cfg sched s_copy
                     (dense_expr cfg tmp) r m1)).
Proof.
  intros Hfair Hlaws Hfits Hsize Hlegal Hap Hfr tmp m1. split.
  - apply assign_evaluate_impl_updated; try assumption.
    apply fresh_elementwise, Hfr.
  - apply assign_evaluate_impl_updated; try assumption.
    + apply dense_expr_laws.
    + apply dense_expr_elementwise. exact Hap.
    + reflexivity.
    + destruct s_copy; simpl; auto.
Qed.

End WholeAssignFacts.

(** X11.  [assign_evaluate], on either path.  With a temporary (the
    expression is not linear and aliases the destination) or without, the
    destination ends with the expression as read before the call; no
    address outside the destination and the temporary changes, and when no
    temporary is used nothing outside the destination changes.  The
    expression must be elementwise independent of the destination on the
    path without temporary, and must not read the temporary's storage. *)
Theorem assign_evaluate_correct {V : Type} `{Arith V} (cfg : config)
        (sched : list chunk -> list chunk) (s s_copy : strategy)
        (tmp_memory : Z) (e : Expr V) (r : dense) (m : machine V) :
  config_ok cfg -> fair sched -> ExprLaws cfg e ->
  fits cfg (_size r) -> e_size e = _size r -> legal s e ->
  cells_apart cfg (force_temporary tmp_memory r) r ->
  fresh_for cfg e (force_temporary tmp_memory r) ->
  (negb (is_linear e) && alias cfg r e = false -> elementwise cfg e r) ->
  let tmp := force_temporary tmp_memory r in
  let final := assign_evaluate cfg sched s s_copy tmp_memory e r m in
  (forall i, 0 <= i < _size r ->
     mem final (elem cfg (_memory r) i) = read_flat e (mem m) i)
  /\ (forall a,
        (forall i, 0 <= i < _size r -> a <> elem cfg (_memory r) i) ->
        (forall i, 0 <= i < _size r -> a <> elem cfg (_memory tmp) i) ->
        mem final a = mem m a)
  /\ (negb (is_linear e) && alias cfg r e = false ->
      forall a,
        (forall i, 0 <= i < _size r -> a <> elem cfg (_memory r) i) ->
        mem final a = mem m a).
Proof.
  intros Hcfg Hfair Hlaws Hfits Hsize Hlegal Hap Hfr Hel tmp final.
  unfold final, assign_evaluate, evaluate_only.
  destruct (negb (is_linear e) && alias cfg r e) eqn:G.
  - destruct (assign_through_temporary_updated cfg Hcfg sched s s_copy
                tmp_memory e r m Hfair Hlaws Hfits Hsize Hlegal Hap Hfr)
      as [(_ & Hv1 & Ho1) (_ & Hv2 & Ho2)].
    fold tmp in Hv1, Ho1, Hv2, Ho2 |- *.
    split; [|split].
    + intros i Hi. rewrite (Hv2 i Hi). simpl. apply (Hv1 i Hi).
    + intros a Hr Ht. rewrite Ho2 by exact Hr. apply Ho1. exact Ht.
    + discriminate.
  - destruct (assign_evaluate_impl_updated cfg Hcfg sched s e r m Hfair Hlaws
                (Hel eq_refl) Hfits Hsize Hlegal) as (_ & Hv & Ho).
    split; [|split].
    + intros i Hi. apply (Hv i Hi).
    + intros a Hr _. apply Ho, Hr.
    + intros _ a Hr. apply Ho, Hr.
Qed.

Lemma assign_evaluate_correct_witness :
  mem (assign_evaluate avx_float in_order_pool standard fast 16384
         (transpose_expr avx_float 3 square3) square3 start)
      (elem avx_float (_memory square3) 1)
  = mem start (elem avx_float (_memory square3) 3)
  /\ mem (assign_evaluate avx_float in_order_pool standard fast 16384
            (transpose_expr avx_float 3 square3) square3 start) 0
     = mem start 0.
Proof.
  destruct (assign_evaluate_correct avx_float in_order_pool standard fast
              16384 (transpose_expr avx_float 3 square3) square3 start
              config_ok_avx_float fair_in_order_pool
              (transpose_expr_laws avx_float 3 square3))
    as (Hv & Hf & _).
  - unfold fits, SizeT.modulus. simpl. lia.
  - reflexivity.
  - exact I.
  - exact square3_temporary_apart.
  - apply (transpose_fresh avx_float 3 square3);
      [lia | reflexivity | reflexivity | exact square3_temporary_apart].
  - intros E. vm_compute in E. discriminate E.
  - split.
    + rewrite (Hv 1) by (simpl; lia). reflexivity.
    + apply Hf; intros i Hi;
        cbv [elem force_temporary square3 avx_float _memory _size size_1] in *;
        lia.
Defined.

(** X12.  Assigning a container to another one whose address range it does
    not overlap: whichever overload is selected, the destination ends with
    the elements of the source and the source is left as it was. *)
Theorem copy_between_disjoint_containers {V : Type} `{Arith V} (cfg : config)
        (sched : list chunk -> list chunk) (s s_copy : strategy)
        (tmp_memory : Z) (c r : dense) (m : machine V) :
  config_ok cfg -> fair sched -> fits cfg (_size r) -> _size c = _size r ->
  memory_end cfg c <= memory_start r \/ memory_end cfg r <= memory_start c ->
  let final :=
    assign_evaluate cfg sched s s_copy tmp_memory (dense_expr cfg c) r m in
  forall i, 0 <= i < _size r ->
    mem final (elem cfg (_memory r) i) = mem m (elem cfg (_memory c) i)
    /\ mem final (elem cfg (_memory c) i) = mem m (elem cfg (_memory c) i).
Proof.
  intros Hcfg Hfair Hfits Hsize Hd final i Hi.
  pose proof (ranges_apart cfg Hcfg c r Hd) as Hap.
  assert (Hel : elementwise cfg (dense_expr cfg c : Expr V) r).
  { apply dense_expr_elementwise. intros i' j Hi' Hj.
    apply Hap; [rewrite Hsize; exact Hi' | exact Hj]. }
  assert (Hlegal : legal s (dense_expr cfg c : Expr V))
    by (destruct s; simpl; auto).
  destruct (assign_evaluate_impl_updated cfg Hcfg sched s (dense_expr cfg c)
              r m Hfair (dense_expr_laws cfg c) Hel Hfits Hsize Hlegal)
    as (_ & Hv & Ho).
  unfold final, assign_evaluate, evaluate_only. cbn [is_linear dense_expr negb andb].
  split.
  - rewrite (Hv i Hi). reflexivity.
  - apply Ho. intros j Hj. apply Hap; [rewrite Hsize; exact Hi | exact Hj].
Qed.
Lemma copy_between_disjoint_containers_witness :
  mem (assign_evaluate avx_float reverse_pool parallel_vectorized fast 16384
         (dense_expr avx_float source23) dest23 start)
      (elem avx_float (_memory dest23) 17)
  = 68.
Proof.
  destruct (copy_between_disjoint_containers avx_float reverse_pool
              parallel_vectorized fast 16384 source23 dest23 start
              config_ok_avx_float fair_reverse_pool) with (i := 17)
    as [Hv _].
  - unfold fits, SizeT.modulus. simpl. lia.
  - reflexivity.
  - left. unfold memory_end, memory_start, elem. simpl. lia.
  - simpl. lia.
  - rewrite Hv. reflexivity.
Defined.

(** ** Composition of compound assignments; the memory copy *)

Section RoundTripFacts.

Context {V : Type} `{Arith V}.
Variable cfg : config.
Hypothesis Hcfg : config_ok cfg.

(** An address is an element of the container or is none of them. *)
Lemma cell_or_not (r : dense) a :
  (exists i, 0 <= i < _size r /\ a = elem cfg (_memory r) i)
  \/ (forall i, 0 <= i < _size r -> a <> elem cfg (_memory r) i).
Proof.
  pose proof (size_1_pos cfg Hcfg) as Hs.
  set (i := (a - _memory r) / size_1 cfg).
  destruct (Z.eq_dec a (elem cfg (_memory r) i)) as [Ea | Na].
  - destruct (Z_le_dec 0 i) as [Hi0 | Hi0];
      [destruct (Z_lt_dec i (_size r)) as [Hi1 | Hi1]|].
    + left. exists i. split; [lia | exact Ea].
    + right. intros j Hj E. rewrite Ea in E.
      apply (elem_inj cfg Hcfg) in E. lia.
    + right. intros j Hj E. rewrite Ea in E.
      apply (elem_inj cfg Hcfg) in E. lia.
  - right. intros j _ E. apply Na. subst a. unfold i, elem.
    replace (_memory r + j * size_1 cfg - _memory r) with (j * size_1 cfg)
      by lia.
    rewrite Z.div_mul by lia. reflexivity.
Qed.

End RoundTripFacts.

(** X13.  [add_evaluate] then [sub_evaluate] with the same expression is the
    identity on the heap, whichever overloads run, when the arithmetic of
    the element type is exact ([(x + y) - y = x]) and the expression does
    not read the destination. *)
Theorem add_then_sub_restores {V : Type} `{Arith V} (cfg : config)
        (sched : list chunk -> list chunk) (s1 s2 : compound_strategy)
        (e : Expr V) (r : dense) (m : machine V) :
  config_ok cfg -> fair sched ->
  ExprLaws cfg e -> fresh_for cfg e r -> fits cfg (_size r) ->
  (forall x y : V, v_sub (v_add x y) y = x) ->
  forall a,
    mem (sub_evaluate cfg sched s2 e r (add_evaluate cfg sched s1 e r m)) a
    = mem m a.
Proof.
  intros Hcfg Hfair Hlaws Hfr Hfits Hexact a.
  pose proof (fresh_elementwise cfg e r Hfr) as Hel.
  set (m1 := add_evaluate cfg sched s1 e r m).
  destruct (compound_evaluate_updated cfg Hcfg sched OpAdd s1 e r m
              Hfair Hlaws Hel Hfits) as (_ & Hv1 & Ho1).
  destruct (compound_evaluate_updated cfg Hcfg sched OpSub s2 e r m1
              Hfair Hlaws Hel Hfits) as (_ & Hv2 & Ho2).
  fold (add_evaluate cfg sched s1 e r m) in Hv1, Ho1. fold m1 in Hv1, Ho1.
  fold (sub_evaluate cfg sched s2 e r m1) in Hv2, Ho2.
  destruct (cell_or_not cfg Hcfg r a) as [(i & Hi & ->) | Hout].
  - rewrite (Hv2 i Hi), (Hv1 i Hi). simpl.
    rewrite (Hfr (mem m1) (mem m) i Hi); [apply Hexact|].
    intros a' Ha'. apply Ho1. exact Ha'.
  - rewrite (Ho2 a Hout). apply Ho1, Hout.
Qed.

Lemma Z_add_sub_exact : forall x y : Z, v_sub (v_add x y) y = x.
Proof. intros x y. simpl. lia. Qed.

Lemma source23_fresh :
  fresh_for avx_float (dense_expr avx_float source23 : Expr Z) dest23.
Proof.
  intros h h' i Hi Hagree. simpl. apply Hagree. intros j Hj.
  cbv [elem source23 dest23 avx_float _memory _size size_1] in *. lia.
Qed.

Lemma add_then_sub_restores_witness :
  mem (sub_evaluate avx_float reverse_pool vectorized_compound
         (dense_expr avx_float source23) dest23
         (add_evaluate avx_float reverse_pool parallel_compound
            (dense_expr avx_float source23) dest23 start))
      (elem avx_float (_memory dest23) 17)
  = 8260.
Proof.
  rewrite (add_then_sub_restores avx_float reverse_pool parallel_compound
             vectorized_compound (dense_expr avx_float source23) dest23 start
             config_ok_avx_float fair_reverse_pool
             (dense_expr_laws avx_float source23) source23_fresh).
  - reflexivity.
  - unfold fits, SizeT.modulus. simpl. lia.
  - exact Z_add_sub_exact.
Defined.

(** X14.  The memory copy of the [fast] overload is driven by the source:
    it stores as many elements as the source holds, in ascending order,
    whatever the size of the destination; with a source larger than the
    destination it stores past the destination's last element. *)
Theorem fast_copy_follows_source {V : Type} `{Arith V} (cfg : config)
        (sched : list chunk -> list chunk) (e : Expr V) (r : dense)
        (m : machine V) :
  config_ok cfg -> ExprLaws cfg e -> all_dma e = true -> 0 <= e_size e ->
  exists tr,
    log (assign_evaluate_impl cfg sched fast e r m) = log m ++ tr
    /\ tr = map (pair Scalar) (zseq 0 (e_size e))
    /\ (0 <= _size r < e_size e -> In (Scalar, _size r) tr).
Proof.
  intros Hcfg Hlaws Hdma Hn.
  exists (map (pair Scalar) (zseq 0 (e_size e))).
  assert (Hgoal :
            log (assign_evaluate_impl cfg sched fast e r m)
            = log m ++ map (pair Scalar) (zseq 0 (e_size e))
            /\ (0 <= _size r < e_size e ->
                In (Scalar, _size r)
                   (map (pair Scalar) (zseq 0 (e_size e)))));
    [|destruct Hgoal as [E Hin]; split; [exact E | split; [reflexivity | exact Hin]]].
  pose proof (size_1_pos cfg Hcfg) as Hs.
  destruct (dma_memory cfg e Hlaws Hdma) as [_ Hend].
  assert (En : (e_memory_end e - e_memory_start e) / size_1 cfg = e_size e).
  { rewrite Hend. unfold elem.
    replace (e_memory_start e + e_size e * size_1 cfg - e_memory_start e)
      with (e_size e * size_1 cfg) by lia.
    apply Z.div_mul. lia. }
  split.
  - simpl. unfold std_copy. rewrite En.
    rewrite (for_loop_strided _ _ _ 1 (Z.to_nat (e_size e))).
    + cbn [snd]. fold (zseq 0 (e_size e)).
      generalize (zseq 0 (e_size e)). intros l. revert m.
      induction l as [|k l IH]; intros m0; simpl.
      * symmetry. apply app_nil_r.
      * change (fold_left _ l ?x)
          with (run_body
                  (fun k0 m1 =>
                     scalar_store cfg Scalar (memory_start r) k0
                       (mem m1 (elem cfg (e_memory_start e) k0)) m1) l x).
        rewrite IH. simpl. rewrite <- app_assoc. reflexivity.
    + unfold fuel_for. lia.
    + intros j Hj. apply Z.ltb_lt. lia.
    + apply Z.ltb_ge. lia.
    + intros j Hj. lia.
  - intros Hlt. apply in_map. apply in_zseq; lia.
Qed.

Lemma fast_copy_follows_source_witness :
  In (Scalar, 9)
     (log (assign_evaluate_impl avx_float in_order_pool fast
             (dense_expr avx_float source23) square3 start)).
Proof.
  destruct (fast_copy_follows_source avx_float in_order_pool
              (dense_expr avx_float source23) square3 start
              config_ok_avx_float (dense_expr_laws avx_float source23)
              eq_refl) as (tr & E & _ & Hin).
  - simpl. lia.
  - rewrite E. apply in_or_app. right. apply Hin. simpl. lia.
Defined.

(** ** Dimensions and invariants of [dyn_base] *)

Module DynBaseFacts.
Import SizeT.

Lemma wrap_range x : in_range (wrap x).
Proof. unfold in_range, wrap. apply Z.mod_pos_bound. reflexivity. Qed.

Lemma wrap_wrap x : wrap (wrap x) = wrap x.
Proof. unfold wrap. apply Z.mod_mod. discriminate. Qed.

(** The accumulation of [check_invariants] is the wrapped product. *)
Lemma accumulate_product dims acc :
  dims <> [] ->
  fold_left mul dims acc = wrap (acc * fold_right Z.mul 1 dims).
Proof.
  revert acc. induction dims as [|d ds IH]; intros acc Hne; [contradiction|].
  simpl. destruct ds as [|d' ds].
  - simpl. unfold mul. f_equal. lia.
  - rewrite IH by discriminate. unfold mul, wrap.
    rewrite Z.mul_mod_idemp_l by discriminate. f_equal. lia.
Qed.

(** [dyn_detail::size] is the wrapped product too. *)
Lemma size_product first args :
  wrap (DynBase.size first args) = wrap (first * fold_right Z.mul 1 args).
Proof.
  revert first. induction args as [|a args IH]; intros first.
  - simpl. f_equal. lia.
  - simpl. unfold mul. rewrite wrap_wrap. unfold wrap.
    rewrite <- (Z.mul_mod_idemp_r first (DynBase.size a args)) by discriminate.
    fold (wrap (DynBase.size a args)). rewrite IH. unfold wrap.
    rewrite Z.mul_mod_idemp_r by discriminate. reflexivity.
Qed.

Lemma size_range first args : in_range first -> in_range (DynBase.size first args).
Proof.
  intros Hf. destruct args as [|a args]; [exact Hf|]. apply wrap_range.
Qed.

Lemma accumulate_zeros k : fold_left mul (repeat 0 k) 0 = 0.
Proof. induction k as [|k IH]; [reflexivity|]. simpl. exact IH. Qed.

End DynBaseFacts.

(** X15.  [dyn_detail::size] against [check_invariants].  The size computed
    from the dimensions is their product reduced modulo [2^64], and a
    [dyn_base] constructed with that size and those dimensions passes both
    assertions of [check_invariants], also when the product overflows
    [std::size_t]. *)
Theorem size_meets_invariants (first : Z) (args : list Z) :
  SizeT.in_range first ->
  DynBase.size first args = SizeT.wrap (fold_right Z.mul 1 (first :: args))
  /\ DynBase.check_invariants (length (first :: args))
       (DynBase.init (DynBase.size first args) (first :: args)) = true.
Proof.
  intros Hf.
  assert (E : DynBase.size first args
              = SizeT.wrap (fold_right Z.mul 1 (first :: args))).
  { rewrite <- (SizeTFacts.wrap_small (DynBase.size first args))
      by (apply DynBaseFacts.size_range, Hf).
    apply DynBaseFacts.size_product. }
  split; [exact E|].
  unfold DynBase.check_invariants, DynBase.init.
  cbn [DynBase._dimensions DynBase._size].
  rewrite Nat.eqb_refl. cbn [andb].
  rewrite DynBaseFacts.accumulate_product by discriminate.
  rewrite E, Z.mul_1_l. apply Z.eqb_refl.
Qed.

Lemma size_meets_invariants_witness :
  DynBase.size (2 ^ 40) [2 ^ 30; 3] = 0
  /\ DynBase.check_invariants 3
       (DynBase.init (DynBase.size (2 ^ 40) [2 ^ 30; 3]) [2 ^ 40; 2 ^ 30; 3])
     = true.
Proof.
  destruct (size_meets_invariants (2 ^ 40) [2 ^ 30; 3]) as [E C].
  - unfold SizeT.in_range, SizeT.modulus. lia.
  - split; [rewrite E; reflexivity | exact C].
Defined.

(** X16.  The default constructor.  [dyn_base()] sets the size to 0 and fills
    the dimensions with 0; the invariants it then checks hold exactly when
    the container has at least one dimension (the accumulation over no
    dimension is 1, not 0). *)
Theorem default_constructor_invariants (D : nat) :
  DynBase.check_invariants D (DynBase.init_default D) = true <-> D <> 0%nat.
Proof.
  unfold DynBase.check_invariants, DynBase.init_default.
  cbn [DynBase._dimensions DynBase._size].
  rewrite repeat_length, Nat.eqb_refl. cbn [andb].
  destruct D as [|D].
  - simpl. split; [discriminate | intros N; contradiction N; reflexivity].
  - simpl. rewrite DynBaseFacts.accumulate_zeros.
    split; [discriminate | reflexivity].
Qed.

(** X17.  On a one-dimensional container that satisfies the invariants,
    [operator()(i)] and [operator[](i)] accept the same indices and return
    the same element: the bound [dim(0)] of the first is the bound [_size]
    of the second. *)
Theorem one_dimensional_access_agrees {V : Type} (cfg : config)
        (c : DynBase.dense_dyn_base) (h : heap V) (i : Z) :
  DynBase.check_invariants 1 (DynBase.base c) = true ->
  (forall d, In d (DynBase._dimensions (DynBase.base c)) -> SizeT.in_range d) ->
  DynBase.call_1d cfg c h i = DynBase.read_flat cfg c h i.
Proof.
  intros Hinv Hr. unfold DynBase.check_invariants in Hinv.
  apply andb_prop in Hinv. destruct Hinv as [Hlen Hsize].
  apply Nat.eqb_eq in Hlen. apply Z.eqb_eq in Hsize.
  unfold DynBase.call_1d, DynBase.read_flat, DynBase.dim.
  destruct (DynBase._dimensions (DynBase.base c)) as [|d0 [|d1 ds]];
    try discriminate Hlen.
  simpl in Hsize |- *. rewrite <- Hsize.
  unfold SizeT.mul. rewrite Z.mul_1_l.
  rewrite SizeTFacts.wrap_small by (apply Hr; left; reflexivity).
  reflexivity.
Qed.

Lemma one_dimensional_access_agrees_witness :
  let c := {| DynBase.base := DynBase.init 23 [23]; DynBase._memory := 8192 |} in
  DynBase.call_1d avx_float c iota_heap 17 = Some 8260
  /\ DynBase.call_1d avx_float c iota_heap 23 = None.
Proof.
  intros c.
  assert (Hinv : DynBase.check_invariants 1 (DynBase.base c) = true)
    by reflexivity.
  assert (Hr : forall d, In d (DynBase._dimensions (DynBase.base c)) ->
                         SizeT.in_range d).
  { intros d [<- | []]. unfold SizeT.in_range, SizeT.modulus. lia. }
  split.
  - rewrite (one_dimensional_access_agrees avx_float c iota_heap 17 Hinv Hr).
    reflexivity.
  - rewrite (one_dimensional_access_agrees avx_float c iota_heap 23 Hinv Hr).
    reflexivity.
Defined.

(** ** Views and availability flags *)

(** X18.  Row-major indexing of the matrix views.  For a view of [Rows] by
    [Columns] elements whose count fits [std::size_t], [operator()(i, j)]
    of [fast_matrix_view] and of [dyn_matrix_view] reads the flat element
    [i * Columns + j] of the viewed expression, which lies below
    [Rows * Columns]; two positions read the same flat element only if they
    are equal, and every flat element [k] is the one of position
    [(k / Columns, k mod Columns)]. *)
Theorem matrix_view_row_major {V : Type} (Rows Columns : Z) (sub : Z -> V) :
  0 < Columns -> 0 <= Rows -> Rows * Columns < SizeT.modulus ->
  (forall i j, 0 <= i < Rows -> 0 <= j < Columns ->
     Views.dyn_matrix_view_at Columns sub i j = sub (i * Columns + j)
     /\ Views.fast_matrix_view_at Columns sub i j = sub (i * Columns + j)
     /\ 0 <= i * Columns + j < Rows * Columns)
  /\ (forall i j i' j',
        0 <= i < Rows -> 0 <= j < Columns ->
        0 <= i' < Rows -> 0 <= j' < Columns ->
        i * Columns + j = i' * Columns + j' -> i = i' /\ j = j')
  /\ (forall k, 0 <= k < Rows * Columns ->
        0 <= k / Columns < Rows /\ 0 <= k mod Columns < Columns
        /\ Views.dyn_matrix_view_at Columns sub (k / Columns) (k mod Columns)
           = sub k).
Proof.
  intros Hc Hr Hfit.
  assert (Hidx : forall i j, 0 <= i < Rows -> 0 <= j < Columns ->
                   0 <= i * Columns + j < Rows * Columns) by (intros; nia).
  assert (Hat : forall i j, 0 <= i < Rows -> 0 <= j < Columns ->
                  SizeT.add (SizeT.mul i Columns) j = i * Columns + j).
  { intros i j Hi Hj. pose proof (Hidx i j Hi Hj).
    assert (0 <= i * Columns) by (apply Z.mul_nonneg_nonneg; lia).
    rewrite SizeTFacts.mul_small by (unfold SizeT.in_range; lia).
    apply SizeTFacts.add_small. unfold SizeT.in_range. lia. }
  split; [|split].
  - intros i j Hi Hj. unfold Views.dyn_matrix_view_at, Views.fast_matrix_view_at.
    rewrite Hat by assumption. auto.
  - intros i j i' j' Hi Hj Hi' Hj' E.
    assert (Hii : i = i').
    { destruct (Z.lt_trichotomy i i') as [Hlt | [Heq | Hgt]]; [|exact Heq|].
      - assert ((i + 1) * Columns <= i' * Columns)
          by (apply Z.mul_le_mono_nonneg_r; lia).
        lia.
      - assert ((i' + 1) * Columns <= i * Columns)
          by (apply Z.mul_le_mono_nonneg_r; lia).
        lia. }
    subst i'. split; [reflexivity | lia].
  - intros k Hk.
    pose proof (Z.div_mod k Columns ltac:(lia)) as Hdm.
    pose proof (Z.mod_pos_bound k Columns Hc) as Hm.
    assert (Hd : 0 <= k / Columns < Rows).
    { split; [apply Z.div_pos; lia|].
      apply Z.div_lt_upper_bound; [lia | nia]. }
    split; [exact Hd|]. split; [exact Hm|].
    unfold Views.dyn_matrix_view_at. rewrite Hat by assumption.
    f_equal. lia.
Qed.

Lemma matrix_view_row_major_witness :
  Views.dyn_matrix_view_at 4 (fun k => k) 2 3 = 11
  /\ Views.dyn_matrix_view_at 4 (fun k => k) (11 / 4) (11 mod 4) = 11.
Proof.
  destruct (matrix_view_row_major 3 4 (fun k : Z => k))
    as (Hat & _ & Hflat); [lia | lia | unfold SizeT.modulus; lia |].
  split.
  - destruct (Hat 2 3) as (E & _); [lia | lia | exact E].
  - destruct (Hflat 11) as (_ & _ & E); [lia | exact E].
Defined.

(** X19.  The dimension check of [dim_view] never fails: the asserted
    condition [D > 0 || D < 3] holds for every [D], although the accessors
    return an element only for [D = 1] (row [i]) and [D = 2] (column
    [i]). *)
Theorem dim_view_assert_is_vacuous {V : Type} (D : Z) (sub : Z -> Z -> V)
        (i j : Z) :
  Views.dim_view_static_assert D = true
  /\ (Views.dim_view_at D sub i j = None <-> D <> 1 /\ D <> 2)
  /\ (D = 1 -> Views.dim_view_at D sub i j = Some (sub i j))
  /\ (D = 2 -> Views.dim_view_at D sub i j = Some (sub j i)).
Proof.
  unfold Views.dim_view_static_assert, Views.dim_view_at.
  split; [|split; [|split]].
  - destruct (Z.ltb_spec 0 D); destruct (Z.ltb_spec D 3); try reflexivity. lia.
  - destruct (Z.eqb_spec D 1); destruct (Z.eqb_spec D 2); split;
      try discriminate; try lia; try tauto.
  - intros ->. reflexivity.
  - intros ->. reflexivity.
Qed.

(** X20.  The availability flags of the scalar-add kernels.  The branch taken
    when [EGBLAS_HAS_SCALAR_DADD] is not defined declares
    [has_scalar_sadd] instead of [has_scalar_dadd]: every flag is declared
    exactly once if and only if [EGBLAS_HAS_SCALAR_DADD] is defined;
    without it [has_scalar_sadd] is declared twice and [has_scalar_dadd]
    not at all. *)
Theorem scalar_add_flags_declared_once (SADD DADD CADD ZADD : bool) :
  let decls := Egblas.declarations SADD DADD CADD ZADD in
  ((forall f, Egblas.declared decls f = 1%nat) <-> DADD = true)
  /\ (DADD = false ->
      Egblas.declared decls Egblas.has_scalar_sadd = 2%nat
      /\ Egblas.declared decls Egblas.has_scalar_dadd = 0%nat).
Proof.
  destruct SADD, DADD, CADD, ZADD; cbv zeta; split;
    try (split; [intros _; reflexivity | intros _ f; destruct f; reflexivity]);
    try (split; [intros Hf; specialize (Hf Egblas.has_scalar_dadd);
                 discriminate Hf | discriminate]);
    try discriminate;
    intros _; split; reflexivity.
Qed.
